(** * MLLDSv2: leakage-score engine, feature extractor and playback layer

    A shallow embedding of the scoring pipeline ([LsCalculator.js],
    [FeatureCalculator.js], the geometry helpers of [utils.js], the
    quadrant built by the telestrator), of the possession scan and of the
    playback layer ([PlaybackBuffer.js], [PlayerManager.js], the tick of
    [main.js]).

    Numbers.  A JavaScript number is an IEEE-754 double.  The scoring code
    is embedded over [num]: a real number or one of the three special
    values [PInf], [NInf], [NaN].  Arithmetic on finite values is exact
    (rounding, overflow of finite results and the sign of zero are not
    modelled); the propagation of [NaN] and of the infinities, the
    comparisons, [isFinite] and truthiness follow ECMAScript.  The playback
    layer only adds, subtracts, multiplies, divides and compares, and is
    embedded over the rationals so that it runs. *)

From stdpp Require Import gmap strings.
From Stdlib Require Import Reals Lra Lia List Bool Permutation Sorted QArith Qround.
Import ListNotations.
Local Close Scope Q_scope.

(** ** JavaScript numbers *)

Inductive num : Type :=
| Fin (r : R)
| PInf
| NInf
| NaN.

Definition Rltb (a b : R) : bool := if Rlt_dec a b then true else false.
Definition Rleb (a b : R) : bool := if Rle_dec a b then true else false.
Definition Reqb (a b : R) : bool := if Req_dec_T a b then true else false.

Definition nzero : num := Fin 0%R.

Definition isNaN (a : num) : bool :=
  match a with NaN => true | _ => false end.

Definition isFinite (a : num) : bool :=
  match a with Fin _ => true | _ => false end.

(** [!a] is true exactly for zero and [NaN]. *)
Definition falsy (a : num) : bool :=
  match a with
  | Fin r => Reqb r 0
  | NaN => true
  | _ => false
  end.

(** [a || b] on numbers. *)
Definition nor (a b : num) : num := if falsy a then b else a.

Definition nneg (a : num) : num :=
  match a with
  | Fin r => Fin (- r)
  | PInf => NInf
  | NInf => PInf
  | NaN => NaN
  end.

Definition nadd (a b : num) : num :=
  match a, b with
  | NaN, _ | _, NaN => NaN
  | Fin x, Fin y => Fin (x + y)
  | PInf, NInf | NInf, PInf => NaN
  | PInf, _ | _, PInf => PInf
  | NInf, _ | _, NInf => NInf
  end.

Definition nsub (a b : num) : num := nadd a (nneg b).

(** An infinity scaled by the sign of a finite factor. *)
Definition inf_times (pos : bool) (r : R) : num :=
  if Rltb 0 r then (if pos then PInf else NInf)
  else if Rltb r 0 then (if pos then NInf else PInf)
  else NaN.

Definition nmul (a b : num) : num :=
  match a, b with
  | NaN, _ | _, NaN => NaN
  | Fin x, Fin y => Fin (x * y)
  | Fin x, PInf | PInf, Fin x => inf_times true x
  | Fin x, NInf | NInf, Fin x => inf_times false x
  | PInf, PInf | NInf, NInf => PInf
  | PInf, NInf | NInf, PInf => NInf
  end.

(** Division; a zero divisor is the positive zero. *)
Definition ndiv (a b : num) : num :=
  match a, b with
  | NaN, _ | _, NaN => NaN
  | Fin x, Fin y =>
      if Reqb y 0 then inf_times true x else Fin (x / y)
  | Fin _, _ => Fin 0
  | PInf, Fin y => if Rltb y 0 then NInf else PInf
  | NInf, Fin y => if Rltb y 0 then PInf else NInf
  | _, _ => NaN
  end.

Definition nlt (a b : num) : bool :=
  match a, b with
  | NaN, _ | _, NaN => false
  | Fin x, Fin y => Rltb x y
  | NInf, NInf => false
  | NInf, _ => true
  | _, PInf => match a with PInf => false | _ => true end
  | _, _ => false
  end.

Definition neqb (a b : num) : bool :=
  match a, b with
  | Fin x, Fin y => Reqb x y
  | PInf, PInf | NInf, NInf => true
  | _, _ => false
  end.

Definition ngt (a b : num) : bool := nlt b a.
Definition nle (a b : num) : bool := nlt a b || neqb a b.
Definition nge (a b : num) : bool := nle b a.

(** [Math.max] and [Math.min] of two arguments. *)
Definition nmax (a b : num) : num :=
  match a, b with
  | NaN, _ | _, NaN => NaN
  | _, _ => if nlt a b then b else a
  end.

Definition nmin (a b : num) : num :=
  match a, b with
  | NaN, _ | _, NaN => NaN
  | _, _ => if nlt b a then b else a
  end.

(** [Math.min(...l)]: [Infinity] on the empty list. *)
Definition nmin_list (l : list num) : num := fold_left nmin l PInf.

(** [Math.max(...l)]: [-Infinity] on the empty list. *)
Definition nmax_list (l : list num) : num := fold_left nmax l NInf.

Definition nabs (a : num) : num :=
  match a with
  | Fin r => Fin (Rabs r)
  | PInf | NInf => PInf
  | NaN => NaN
  end.

Definition nsqrt (a : num) : num :=
  match a with
  | Fin r => if Rltb r 0 then NaN else Fin (sqrt r)
  | PInf => PInf
  | _ => NaN
  end.

Definition nexp (a : num) : num :=
  match a with
  | Fin r => Fin (exp r)
  | PInf => PInf
  | NInf => Fin 0
  | NaN => NaN
  end.

Definition ntanh (a : num) : num :=
  match a with
  | Fin r => Fin (tanh r)
  | PInf => Fin 1
  | NInf => Fin (-1)
  | NaN => NaN
  end.

Definition nacos (a : num) : num :=
  match a with
  | Fin r => if Rltb r (-1) || Rltb 1 r then NaN else Fin (acos r)
  | _ => NaN
  end.

(** [arr.reduce((s, v) => s + v, 0)]. *)
Definition nsum (l : list num) : num := fold_left nadd l nzero.

Declare Scope num_scope.
Delimit Scope num_scope with num.
Bind Scope num_scope with num.
Infix "+" := nadd : num_scope.
Infix "-" := nsub : num_scope.
Infix "*" := nmul : num_scope.
Infix "/" := ndiv : num_scope.
Notation "- a" := (nneg a) : num_scope.
Local Open Scope num_scope.

(** Decimal literals of the source, as exact reals. *)
Definition lit (r : R) : num := Fin r.

(** ** three.js vectors

    Only the [Vector3] methods the engine calls are embedded, after their
    three.js definitions. *)

Record Vector3 : Type := mkV3 { vx : num; vy : num; vz : num }.

Definition subVectors (a b : Vector3) : Vector3 :=
  mkV3 (vx a - vx b) (vy a - vy b) (vz a - vz b).

Definition dot (a b : Vector3) : num :=
  vx a * vx b + vy a * vy b + vz a * vz b.

Definition lengthSq (a : Vector3) : num := dot a a.

Definition distanceToSquared (a b : Vector3) : num :=
  let dx := vx a - vx b in
  let dy := vy a - vy b in
  let dz := vz a - vz b in
  dx * dx + dy * dy + dz * dz.

Definition distanceTo (a b : Vector3) : num := nsqrt (distanceToSquared a b).

Definition addScaledVector (a v : Vector3) (s : num) : Vector3 :=
  mkV3 (vx a + vx v * s) (vy a + vy v * s) (vz a + vz v * s).

Definition lerpVectors (v1 v2 : Vector3) (alpha : num) : Vector3 :=
  mkV3 (vx v1 + (vx v2 - vx v1) * alpha)
       (vy v1 + (vy v2 - vy v1) * alpha)
       (vz v1 + (vz v2 - vz v1) * alpha).

(** [MathUtils.clamp(value, min, max)]. *)
Definition clamp (value lo hi : num) : num := nmax lo (nmin hi value).

Definition angleTo (a b : Vector3) : num :=
  let denominator := nsqrt (lengthSq a * lengthSq b) in
  if neqb denominator nzero then Fin (PI / 2)
  else nacos (clamp (dot a b / denominator) (Fin (-1)) (Fin 1)).

(** ** Players, quadrants, goals *)

(** A [Player] object as the scorers read it.  [pid] stands for the
    identity of the JavaScript object ([!==] compares references), [team]
    and [role] for [playerData.team] and [playerData.role], [position] for
    [mesh.position]; [currentSpeed] is [None] when the property does not hold a number. *)
Record Player : Type := mkPlayer {
  pid : nat;
  team : string;
  role : string;
  position : Vector3;
  velocity : Vector3;
  currentSpeed : option num
}.

Record LQ : Type := mkLQ {
  center : Vector3;
  corners : list Vector3;
  area : num
}.

Record Goal : Type := mkGoal { goal_position : Vector3 }.

(** The value of [p.currentSpeed] once the guard
    [if (typeof p.currentSpeed !== "number" || isNaN(p.currentSpeed))
       p.currentSpeed = 0]
    has run.  The write is idempotent and no scorer reads the property
    before its own guard, so the store is not threaded through. *)
Definition speedOf (p : Player) : num :=
  match currentSpeed p with
  | Some s => if isNaN s then nzero else s
  | None => nzero
  end.

(** ** LsCalculator.js: the Team Control model *)

Record Metrics : Type := mkMetrics {
  fastestTimeToArrival : num;
  ttas : list num
}.

Definition finiteOr99 (t : num) : num := if isFinite t then t else lit 99.

(** The branch taken when no carrier position is given. *)
Definition directTTA (target : Vector3) (p : Player) : num :=
  distanceTo (position p) target / nmax (speedOf p) (lit 1).

Definition directMetrics (target : Vector3) (players : list Player) : Metrics :=
  match players with
  | [] => mkMetrics (lit 99) []
  | _ =>
      let ts := map (directTTA target) players in
      mkMetrics (finiteOr99 (nmin_list ts)) ts
  end.

(** The intercept-point branch. *)
Definition timeForBallToTravel (target carrierPosition : Vector3) : num :=
  distanceTo carrierPosition target / lit 15.

Definition interceptTTA (target carrierPosition : Vector3) (p : Player) : num :=
  let tb := timeForBallToTravel target carrierPosition in
  let effectiveSpeed := nmax (speedOf p) (lit 4) in
  let projectedPlayerPos := addScaledVector (position p) (velocity p) tb in
  let interceptPoint := lerpVectors target projectedPlayerPos (lit (1/2)) in
  let timeToIntercept := distanceTo (position p) interceptPoint / effectiveSpeed in
  nmax tb timeToIntercept.

Definition interceptMetrics (target carrierPosition : Vector3)
    (players : list Player) : Metrics :=
  match players with
  | [] => mkMetrics (lit 99) []
  | _ =>
      let ts := map (interceptTTA target carrierPosition) players in
      mkMetrics (finiteOr99 (nmin_list ts)) ts
  end.

(** What a caller can pass as the third argument [carrierPosition]:
    nothing (or [null]/[undefined]), a [Vector3], or a [Player] object,
    which is truthy but has no [distanceTo] method. *)
Inductive CarrierArg : Type :=
| ArgAbsent
| ArgVector (v : Vector3)
| ArgPlayer (p : Player).

(** [None] stands for the [TypeError] raised by
    [carrierPosition.distanceTo] on an object without that method. *)
Definition calculateTeamControlMetrics (target : Vector3)
    (players : list Player) (carrierPosition : CarrierArg) : option Metrics :=
  match carrierPosition with
  | ArgAbsent => Some (directMetrics target players)
  | ArgVector c => Some (interceptMetrics target c players)
  | ArgPlayer _ =>
      match players with
      | [] => Some (mkMetrics (lit 99) [])
      | _ => None
      end
  end.

(** ** utils.js: geometry helpers *)

(** [findClosestPlayer].  Every element of the list is a [Player] with a
    mesh, so the guard [if (!player || !player.mesh) continue] never
    fires. *)
Definition closestStep (targetPosition : Vector3)
    (acc : option Player * num) (player : Player) : option Player * num :=
  let distance := distanceTo (position player) targetPosition in
  if nlt distance (snd acc) then (Some player, distance) else acc.

Definition findClosestPlayer (targetPosition : Vector3)
    (players : list Player) : option Player * num :=
  fold_left (closestStep targetPosition) players (None, PInf).

(** The three quantities of the sign test; [Vector2(p.x, p.z)] puts the
    ground coordinate [z] in the second component. *)
Definition tri_s (p p0 p2 : Vector3) : num :=
  vz p0 * vx p2 - vx p0 * vz p2 + (vz p2 - vz p0) * vx p
  + (vx p0 - vx p2) * vz p.

Definition tri_t (p p0 p1 : Vector3) : num :=
  vx p0 * vz p1 - vz p0 * vx p1 + (vz p0 - vz p1) * vx p
  + (vx p1 - vx p0) * vz p.

Definition tri_A (p0 p1 p2 : Vector3) : num :=
  (- vz p1) * vx p2 + vz p0 * (vx p2 - vx p1) + vx p0 * (vz p1 - vz p2)
  + vx p1 * vz p2.

(** [isPointInTriangle]; an argument is [None] when the caller passed
    [undefined] or [null]. *)
Definition isPointInTriangle (p p0 p1 p2 : option Vector3) : bool :=
  match p, p0, p1, p2 with
  | Some p, Some p0, Some p1, Some p2 =>
      let s := tri_s p p0 p2 in
      let t := tri_t p p0 p1 in
      if negb (eqb (nlt s nzero) (nlt t nzero))
         && negb (neqb s nzero) && negb (neqb t nzero)
      then false
      else
        let A := tri_A p0 p1 p2 in
        if nlt A nzero
        then nle s nzero && nge (s + t) A
        else nge s nzero && nle (s + t) A
  | _, _, _, _ => false
  end.

(** The index pairs [(i, j)], [i < j], in the order of the two loops. *)
Fixpoint cornerPairs (l : list Vector3) : list (Vector3 * Vector3) :=
  match l with
  | [] => []
  | c :: rest => map (pair c) rest ++ cornerPairs rest
  end.

Definition coneStep (startPoint : Vector3)
    (acc : num * option (Vector3 * Vector3)) (c : Vector3 * Vector3)
    : num * option (Vector3 * Vector3) :=
  let v1 := subVectors (fst c) startPoint in
  let v2 := subVectors (snd c) startPoint in
  let angle := angleTo v1 v2 in
  if ngt angle (fst acc) then (angle, Some c) else acc.

(** [coneCorners.sort((a, b) => a.z - b.z)] on the two selected corners. *)
Definition sortCorners (c : option (Vector3 * Vector3)) : list Vector3 :=
  match c with
  | Some (a, b) => if ngt (vz a - vz b) nzero then [b; a] else [a; b]
  | None => []
  end.

(** [getPassingCone(startPoint, quadCorners).points]. *)
Definition getPassingCone (startPoint : Vector3)
    (quadCorners : list Vector3) : list Vector3 :=
  let coneCorners :=
    snd (fold_left (coneStep startPoint) (cornerPairs quadCorners)
           (Fin (-1), None)) in
  startPoint :: sortCorners coneCorners.

(** ** LsCalculator.js: the three sub-calculators *)

Definition logistic (rate mid x : num) : num :=
  lit 1 / (lit 1 + nexp (- rate * (x - mid))).

(** One iteration of the last-defender loops; [towardsNegative] is
    [attackingDirection < 0]. *)
Definition lineStep (towardsNegative : bool)
    (acc : num * option Player) (def : Player) : num * option Player :=
  let x := vx (position def) in
  if negb (String.eqb (role def) "GK")
     && (if towardsNegative then nlt x (fst acc) else ngt x (fst acc))
  then (x, Some def) else acc.

Definition lastDefenderLine (towardsNegative : bool)
    (defenders : list Player) : num * option Player :=
  fold_left (lineStep towardsNegative) defenders
    (if towardsNegative then PInf else NInf, None).

Definition calculateStrategicBonus (lq : LQ) (goal : Goal)
    (defenders attackers : list Player) (attackingDirection : num)
    : option num :=
  if (length defenders =? 0)%nat || (length attackers =? 0)%nat
     || falsy attackingDirection
  then Some nzero
  else
    let towardsNegative := nlt attackingDirection nzero in
    let '(offsideLineX, lastDefender) :=
      lastDefenderLine towardsNegative defenders in
    match lastDefender with
    | None => Some nzero
    | Some _ =>
        let isBehindLine :=
          if towardsNegative then nlt (vx (center lq)) offsideLineX
          else ngt (vx (center lq)) offsideLineX in
        if negb isBehindLine then Some nzero
        else
          att ← calculateTeamControlMetrics (center lq) attackers ArgAbsent;
          def ← calculateTeamControlMetrics (center lq) defenders ArgAbsent;
          let attTTA := fastestTimeToArrival att in
          let defTTA := fastestTimeToArrival def in
          if nle defTTA attTTA then Some nzero
          else
            let runway := distanceTo (center lq) (goal_position goal) in
            let bonus :=
              lit 0.95
              * (lit 1 / (lit 1 + nexp (- lit 0.25 * (runway - lit 20)))) in
            Some (if isFinite bonus then bonus else nzero)
    end.

Record ThreatDetails : Type := mkThreat {
  potential : num;
  proximityThreat : num;
  strategicThreat : num;
  combinedProximityScore : num;
  goalAngleFactor : num;
  areaAmplifier : num
}.

Definition calculateThreatPotential (lq : LQ) (goal : Goal)
    (defenders attackers : list Player) (attackingDirection : num)
    : option ThreatDetails :=
  let proximityThreat :=
    lit 1
    / (lit 1
       + nexp (lit 0.25
               * (distanceTo (center lq) (goal_position goal) - lit 30))) in
  strategicThreat ←
    calculateStrategicBonus lq goal defenders attackers attackingDirection;
  let combinedProximityScore := nmax proximityThreat strategicThreat in
  let vectorToGoalCenter := subVectors (goal_position goal) (center lq) in
  let forwardVector := mkV3 attackingDirection nzero nzero in
  let offCenterAngleRad := angleTo vectorToGoalCenter forwardVector in
  let goalAngleFactor := nexp (- lit 1.2 * offCenterAngleRad) in
  let areaAmplifier :=
    lit 1
    + (lit 1 / (lit 1 + nexp (- lit 0.04 * (area lq - lit 75)))) * lit 0.4 in
  let potential0 :=
    combinedProximityScore * lit 0.7 + goalAngleFactor * lit 0.3 in
  let potential1 := potential0 * areaAmplifier in
  Some (mkThreat
          (nmin (lit 1) (if isFinite potential1 then potential1 else nzero))
          proximityThreat strategicThreat combinedProximityScore
          goalAngleFactor areaAmplifier).

Record ExploitDetails : Type := mkExploit {
  exploit_finalScore : num;
  defFastestTime : num;
  defRecoveryScore : num;
  defSwarmScore : num;
  defensiveControl : num;
  attFastestTime : num;
  attSupportScore : num;
  overloadFactor : num;
  attackingPotential : num;
  speedBonus : num
}.

(** [Math.pow(x, DEFENSIVE_PENALTY_EXPONENT)] with the exponent fixed
    to 1. *)
Definition powOne (x : num) : num := x.

Definition nearLq (lq : LQ) (p : Player) : bool :=
  nlt (distanceTo (position p) (center lq)) (lit 20).

(** [p !== carrier]; an absent carrier is [undefined], which no player
    object is identical to. *)
Definition notCarrier (carrier : option Player) (p : Player) : bool :=
  match carrier with
  | Some c => negb (pid p =? pid c)%nat
  | None => true
  end.

Definition carrierArg (carrier : option Player) : CarrierArg :=
  match carrier with
  | Some c => ArgPlayer c
  | None => ArgAbsent
  end.

Definition potentialReceivers (lq : LQ) (attackers : list Player)
    (carrier : option Player) : list Player :=
  filter (fun p => notCarrier carrier p && nearLq lq p) attackers.

(** The defensive side: fastest time and aggregated probability. *)
Definition defensiveSide (lq : LQ) (defenders : list Player)
    : option (num * num) :=
  let defendersNearLq := filter (nearLq lq) defenders in
  match defendersNearLq with
  | [] => Some (lit 99, nzero)
  | _ =>
      m ← calculateTeamControlMetrics (center lq) defendersNearLq ArgAbsent;
      let defProbs := map (fun t => nexp (- lit 0.4 * t)) (ttas m) in
      Some (fastestTimeToArrival m, nsum defProbs)
  end.

(** The offensive side: fastest time, aggregated support, support score. *)
Definition offensiveSide (lq : LQ) (attackers : list Player)
    (carrier : option Player) : option (num * num * num) :=
  let receivers := potentialReceivers lq attackers carrier in
  match receivers with
  | [] => Some (lit 99, nzero, nzero)
  | _ =>
      m ← calculateTeamControlMetrics (center lq) receivers
            (carrierArg carrier);
      let aggAttSupport := nsum (map (fun t => nexp (- lit 0.15 * t)) (ttas m)) in
      Some (fastestTimeToArrival m, aggAttSupport,
            ntanh (aggAttSupport * lit 2))
  end.

Definition calculateExploitationScore (lq : LQ)
    (defenders attackers : list Player) (carrier : option Player)
    : option ExploitDetails :=
  '(defFastestTime, defAggProb) ← defensiveSide lq defenders;
  let defRecoveryScore := nexp (- lit 0.1 * defFastestTime) in
  let defSwarmScore := lit 1 / (lit 1 + defAggProb * lit 5) in
  let defensiveControl :=
    defRecoveryScore * lit 0.6 + (lit 1 - defSwarmScore) * lit 0.4 in
  '(attFastestTime, aggAttSupport, attSupportScore) ←
    offensiveSide lq attackers carrier;
  let overloadScore :=
    lit 1 / (lit 1 + nexp (- lit 5 * (aggAttSupport - defAggProb))) in
  let arrivalTimeAdvantage := nmax nzero (defFastestTime - attFastestTime) in
  let speedBonus :=
    lit 1 + ntanh (arrivalTimeAdvantage * lit 0.2) * lit 0.45 in
  let baseAttackingPotential :=
    attSupportScore * lit 0.6 + overloadScore * lit 0.4 in
  let exploitationScore :=
    baseAttackingPotential * powOne (lit 1 - defensiveControl) in
  let finalScore := nmin (lit 1) (exploitationScore * speedBonus) in
  Some (mkExploit (if isFinite finalScore then finalScore else nzero)
          defFastestTime defRecoveryScore defSwarmScore defensiveControl
          attFastestTime attSupportScore overloadScore
          baseAttackingPotential speedBonus).

Record FeasyDetails : Type := mkFeasy {
  feasy_finalScore : num;
  pressureDist : num;
  pressureFactor : num;
  numInterceptors : nat;
  obstructionFactor : num;
  passDistFactor : num
}.

Definition ofNat (n : nat) : num := Fin (INR n).

Definition calculateFeasibilityScore (lq : LQ) (carrier : Player)
    (defenders : list Player) : FeasyDetails :=
  let pressureDist := snd (findClosestPlayer (position carrier) defenders) in
  let pressureFactor :=
    lit 1 / (lit 1 + nexp (- lit 1.5 * (nor pressureDist (lit 99) - lit 3))) in
  let conePoints := getPassingCone (position carrier) (corners lq) in
  let numInterceptors :=
    length
      (filter
         (fun def =>
            isPointInTriangle (Some (position def)) (nth_error conePoints 0)
              (nth_error conePoints 1) (nth_error conePoints 2))
         defenders) in
  let obstructionFactor := nexp (- lit 0.3 * ofNat numInterceptors) in
  let passDistFactor :=
    nexp (- lit 0.03 * distanceTo (position carrier) (center lq)) in
  let finalScore :=
    obstructionFactor * lit 0.45 + pressureFactor * lit 0.3
    + passDistFactor * lit 0.25 in
  mkFeasy (if isFinite finalScore then finalScore else nzero)
    (nor pressureDist (lit 99)) pressureFactor numInterceptors
    obstructionFactor passDistFactor.

(** ** LsCalculator.js: the aggregator *)

Record LsResult : Type := mkLs {
  final_ls : num;
  threatPotentialScore : num;
  exploitationScore : num;
  feasibilityScore : num;
  threat : ThreatDetails;
  exploit : ExploitDetails;
  feasy : FeasyDetails;
  situationValue : num;
  raw_ls : num
}.

(** [calculateLs].  The call [calculateExploitationScore(lq, defenders,
    attackers)] has three arguments: its fourth parameter [carrier] is
    [undefined]. *)
Definition calculateLs (lq : LQ) (carrier : Player)
    (defenders attackers : list Player) (goal : Goal)
    (attackingDirection : num) : option LsResult :=
  threatDetails ←
    calculateThreatPotential lq goal defenders attackers attackingDirection;
  exploitDetails ← calculateExploitationScore lq defenders attackers None;
  let feasyDetails := calculateFeasibilityScore lq carrier defenders in
  let threatPotentialScore := potential threatDetails in
  let exploitationScore := exploit_finalScore exploitDetails in
  let feasibilityScore := feasy_finalScore feasyDetails in
  let ALPHA := lit 0.4 in
  let BASE := lit 0.5 in
  let SCALE := lit 0.5 in
  let K := lit 10 in
  let productValue := threatPotentialScore * exploitationScore in
  let averageValue := (threatPotentialScore + exploitationScore) / lit 2 in
  let situationValue :=
    ALPHA * productValue + (lit 1 - ALPHA) * averageValue in
  let raw_ls := situationValue * (BASE + SCALE * feasibilityScore) in
  let final_ls := lit 1 / (lit 1 + nexp (- K * (raw_ls - lit 0.5))) in
  Some (mkLs (if isFinite final_ls then final_ls else nzero)
          threatPotentialScore exploitationScore feasibilityScore
          threatDetails exploitDetails feasyDetails situationValue raw_ls).

(** ** FeatureCalculator.js: the defensive line *)

(** [[...l].sort(cmp)]: the stable sort, by insertion; [x] goes before
    [y] only when [cmp x y] is negative. *)
Section Sort.
Context {A : Type} (cmp : A -> A -> num).

Fixpoint insertSorted (x : A) (l : list A) : list A :=
  match l with
  | [] => [x]
  | y :: rest =>
      if nlt (cmp x y) nzero then x :: y :: rest
      else y :: insertSorted x rest
  end.

Definition sortBy (l : list A) : list A :=
  fold_left (fun acc x => insertSorted x acc) l [].
End Sort.

Definition distToGoalLine (attackingDirection : num) (p : Player) : num :=
  let goalX := attackingDirection * lit 52.5 in
  nabs (vx (position p) - goalX).

Definition byDepth (attackingDirection : num) (a b : Player) : num :=
  distToGoalLine attackingDirection a - distToGoalLine attackingDirection b.

Record LineMetrics : Type := mkLine {
  line_depth : num;
  line_players : list Player
}.

Definition getDefensiveLineMetrics (defenders : list Player)
    (attackingDirection : num) : LineMetrics :=
  match defenders with
  | [] => mkLine nzero []
  | _ =>
      let sortedDefenders := sortBy (byDepth attackingDirection) defenders in
      let linePlayers := firstn 4 sortedDefenders in
      match linePlayers with
      | [] => mkLine nzero []
      | _ =>
          let meanX :=
            fold_left (fun sum p => sum + vx (position p)) linePlayers nzero
            / ofNat (length linePlayers) in
          mkLine meanX linePlayers
      end
  end.

(** The part of the [PlayerManager] the extractor reads: the registered
    players in iteration order and the two team names of the metadata. *)
Record Roster : Type := mkRoster {
  registered : list Player;
  home_team : string;
  away_team : string
}.

Definition getAllTeamPlayers (pm : Roster) (teamName : string) : list Player :=
  filter
    (fun p =>
       String.eqb (team p) teamName
       && negb (String.eqb (role p) "BALL")
       && negb (String.eqb (role p) "REF"))
    (registered pm).

(** [calculateGlobalFeatures(...).defensive_line_depth]. *)
Definition defensive_line_depth (pm : Roster) (attackingTeamName : string)
    (attackingDirection : num) : num :=
  let homeTeamName := home_team pm in
  let defendingTeamName :=
    if String.eqb attackingTeamName homeTeamName then away_team pm
    else homeTeamName in
  let defenders := getAllTeamPlayers pm defendingTeamName in
  line_depth (getDefensiveLineMetrics defenders (- attackingDirection)).

(** ** Sample inputs *)

Definition origin : Vector3 := mkV3 nzero nzero nzero.

(** A player at rest on the ground at [(x, z)]. *)
Definition standing (n : nat) (tm rl : string) (x z : R) : Player :=
  mkPlayer n tm rl (mkV3 (Fin x) nzero (Fin z)) origin (Some nzero).

(** A defending side: keeper, back four and one striker. *)
Definition awaySquad : list Player :=
  [ standing 1 "Away" "GK" (-50) 0;
    standing 2 "Away" "RB" (-40) 10;
    standing 3 "Away" "RCB" (-38) 3;
    standing 4 "Away" "LCB" (-36) (-3);
    standing 5 "Away" "LB" (-34) (-10);
    standing 6 "Away" "ST" 20 0 ].

(** ** Relations used by the order-independence proofs *)


(** ** utils.js and the caller of [calculateLs]: quadrant areas *)

(** [calculatePolygonArea]; the indices read are below the length, so the
    default of [nth] is never returned. *)
Definition calculatePolygonArea (corners : list Vector3) : num :=
  let n := length corners in
  let area :=
    fold_left
      (fun area i =>
         let p1 := nth i corners origin in
         let p2 := nth ((i + 1) mod n) corners origin in
         area + (vx p1 * vz p2 - vx p2 * vz p1))
      (seq 0 n) nzero in
  nabs (area / lit 2).


(** ** FeatureCalculator.js: centroid and shape *)

Record Centroid : Type := mkCentroid { centroid_x : num; centroid_z : num }.

Definition getTeamCentroid (players : list Player) : Centroid :=
  match players with
  | [] => mkCentroid nzero nzero
  | _ =>
      let sum :=
        fold_left
          (fun acc p =>
             (fst acc + vx (position p), snd acc + vz (position p)))
          players (nzero, nzero) in
      mkCentroid (fst sum / ofNat (length players))
        (snd sum / ofNat (length players))
  end.

Record Shape : Type := mkShape { width : num; depth : num }.

Definition getTeamShape (players : list Player) : Shape :=
  if (length players <? 2)%nat then mkShape nzero nzero
  else
    let x_coords := map (fun p => vx (position p)) players in
    let z_coords := map (fun p => vz (position p)) players in
    mkShape (nmax_list z_coords - nmin_list z_coords)
      (nmax_list x_coords - nmin_list x_coords).

(** ** Finite vectors and the angle of a corner pair *)

Definition finiteV (v : Vector3) : Prop :=
  exists x y z, v = mkV3 (Fin x) (Fin y) (Fin z).

(** The angle under which [getPassingCone] sees a pair of corners. *)
Definition coneAngle (startPoint : Vector3) (c : Vector3 * Vector3) : num :=
  angleTo (subVectors (fst c) startPoint) (subVectors (snd c) startPoint).

(** ** PlayerManager.js: possession

    The possession scan reads mesh positions and takes a Euclidean
    distance, so it is embedded over [num].  An [Entity] is a registered
    [Player] object as the scan reads it: [eid] stands for the identity of
    the object, [ename] and [eteam] for [playerData.name] and
    [playerData.team], [eposition] for [mesh.position]. *)

Record Entity : Type := mkEntity {
  eid : nat;
  ename : string;
  eteam : string;
  eposition : Vector3
}.

Definition POSSESSION_THRESHOLD : num := lit 1.5.

(** The entities the scan skips. *)
Definition skipped (player : Entity) : bool :=
  String.eqb (ename player) "Ball" || String.eqb (eteam player) "Referee".

(** One iteration of the loop over [playerMap.values()]. *)
Definition possessionStep (ball : Entity)
    (acc : option Entity * num) (player : Entity) : option Entity * num :=
  if skipped player then acc
  else
    let dist := distanceTo (eposition player) (eposition ball) in
    if nlt dist (snd acc) then (Some player, dist) else acc.

(** [_updatePlayerInPossession]: the new value of [playerInPossession]
    from the ball, the registered entities in iteration order and the
    current holder.  The highlight toggles are rendering only. *)
Definition updatePlayerInPossession (ball : option Entity)
    (registered : list Entity) (playerInPossession : option Entity)
    : option Entity :=
  match ball with
  | None => None
  | Some ball =>
      let closestPlayer :=
        fst (fold_left (possessionStep ball) registered
               (None, POSSESSION_THRESHOLD)) in
      match closestPlayer, playerInPossession with
      | Some c, Some p =>
          if (eid p =? eid c)%nat then playerInPossession else Some c
      | Some c, None => Some c
      | None, _ => None
      end
  end.

(** ** Ranges of numbers *)

(** A duration: a non-negative number, [Infinity] or [NaN]. *)
Definition durationLike (a : num) : Prop :=
  match a with
  | Fin r => (0 <= r)%R
  | PInf | NaN => True
  | NInf => False
  end.

(** A number of the interval [lo, hi]. *)
Definition within (lo hi : R) (a : num) : Prop :=
  match a with
  | Fin r => (lo <= r <= hi)%R
  | _ => False
  end.

(** A number of the interval [lo, hi], or [NaN]. *)
Definition withinOrNaN (lo hi : R) (a : num) : Prop :=
  match a with
  | Fin r => (lo <= r <= hi)%R
  | NaN => True
  | _ => False
  end.

(** A non-negative number or [NaN]. *)
Definition nonnegOrNaN (a : num) : Prop :=
  match a with
  | Fin r => (0 <= r)%R
  | NaN => True
  | _ => False
  end.

(** [isFinite(x) ? x : 0]. *)
Definition finiteOr0 (a : num) : num := if isFinite a then a else nzero.

(** ** PlaybackBuffer.js and PlayerManager.js

    Timestamps, coordinates and interpolation factors are rationals: the
    playback layer only uses [+ - * /], comparisons and [min]/[max].  The
    only division whose divisor is not a literal is by a gap duration,
    which is positive whenever the buffer is sorted by time. *)

Module Playback.
Local Open Scope Q_scope.

Definition Qltb (a b : Q) : bool := negb (Qle_bool b a).
Definition qmax (a b : Q) : Q := if Qltb a b then b else a.
Definition qmin (a b : Q) : Q := if Qltb b a then b else a.

(** A tracking sample [{id, name, team, x, y}]. *)
Record Sample : Type := mkSample {
  id : string;
  name : string;
  sampleTeam : string;
  x : Q;
  y : Q
}.

Record Frame : Type := mkFrame {
  players : list Sample;
  videoTime : Q
}.

(** [this.frames]. *)
Definition PlaybackBuffer : Type := list Frame.

(** [Array.prototype.findIndex]; [None] for [-1]. *)
Fixpoint findIndex {A : Type} (f : A -> bool) (l : list A) : option nat :=
  match l with
  | [] => None
  | a :: rest =>
      if f a then Some 0%nat else option_map S (findIndex f rest)
  end.

Definition first (frames : PlaybackBuffer) : option Frame :=
  nth_error frames 0.

Definition last (frames : PlaybackBuffer) : option Frame :=
  nth_error frames (length frames - 1).

Definition timeSpan (frames : PlaybackBuffer) : Q * Q :=
  if (length frames <? 2)%nat then (0, 0)
  else
    match first frames, last frames with
    | Some f, Some l => (videoTime f, videoTime l)
    | _, _ => (0, 0)
    end.

(** [findFramesForInterpolation]; [None] is the [null] result.  With at
    least two frames every index read is in range, so the pair is always
    made of frames. *)
Definition findFramesForInterpolation (frames : PlaybackBuffer)
    (playbackClock : Q) : option (Frame * Frame) :=
  if (length frames <? 2)%nat then None
  else
    match findIndex (fun frame => Qle_bool playbackClock (videoTime frame))
            frames with
    | None => l ← last frames; Some (l, l)
    | Some O => f ← first frames; Some (f, f)
    | Some (S prevFrameIndex) =>
        p ← nth_error frames prevFrameIndex;
        n ← nth_error frames (S prevFrameIndex);
        Some (p, n)
    end.

(** The loop of [findNextAppearance] from [startIndex] on. *)
Fixpoint scanAppearance (playerId : string) (endTime : Q)
    (frames : list Frame) : option (Sample * Q) :=
  match frames with
  | [] => None
  | frame :: rest =>
      if Qltb endTime (videoTime frame) then None
      else
        match find (fun p => String.eqb (id p) playerId) (players frame) with
        | Some player => Some (player, videoTime frame)
        | None => scanAppearance playerId endTime rest
        end
  end.

Definition findNextAppearance (frames : PlaybackBuffer) (playerId : string)
    (afterTime : Q) : option (Sample * Q) :=
  match findIndex (fun f => Qltb afterTime (videoTime f)) frames with
  | None => None
  | Some startIndex =>
      let gracePeriodMs := 600000 in
      let endTime := afterTime + gracePeriodMs in
      scanAppearance playerId endTime (skipn startIndex frames)
  end.

Record QVec : Type := mkQV { qx : Q; qy : Q; qz : Q }.

Definition qlerpVectors (v1 v2 : QVec) (alpha : Q) : QVec :=
  mkQV (qx v1 + (qx v2 - qx v1) * alpha)
       (qy v1 + (qy v2 - qy v1) * alpha)
       (qz v1 + (qz v2 - qz v1) * alpha).

(** The fields of a tracked [Player] object that the update reads or
    writes; [meshY] is [mesh.position.y], fixed at construction. *)
Record Tracked : Type := mkTracked {
  playerData : Sample;
  isInferred : bool;
  targetRoot : QVec;
  meshY : Q
}.

Definition newPlayer (playerData : Sample) : Tracked :=
  let h := if String.eqb (name playerData) "Ball" then 0.22 else 1.8 / 2 in
  mkTracked playerData false (mkQV 0 h 0) h.

Definition setInferred (b : bool) (p : Tracked) : Tracked :=
  mkTracked (playerData p) b (targetRoot p) (meshY p).

Definition updateTarget (targetPosition : QVec) (p : Tracked) : Tracked :=
  mkTracked (playerData p) (isInferred p)
    (mkQV (qx targetPosition) (meshY p) (qz targetPosition)) (meshY p).

Record GapState : Type := mkGap {
  startPos : QVec;
  endPos : QVec;
  startTime : Q;
  endTime : Q
}.

(** A JavaScript [Map] keeps its keys in insertion order: an association
    list with one entry per key. *)
Definition JsMap (V : Type) : Type := list (string * V).

Fixpoint mapGet {V : Type} (k : string) (m : JsMap V) : option V :=
  match m with
  | [] => None
  | (k', v) :: rest => if String.eqb k' k then Some v else mapGet k rest
  end.

Fixpoint mapSet {V : Type} (k : string) (v : V) (m : JsMap V) : JsMap V :=
  match m with
  | [] => [(k, v)]
  | (k', v') :: rest =>
      if String.eqb k' k then (k, v) :: rest
      else (k', v') :: mapSet k v rest
  end.

(** [new Map(samples.map((p) => [p.id, p]))]. *)
Definition byId (samples : list Sample) : JsMap Sample :=
  fold_left (fun m p => mapSet (id p) p m) samples [].

(** [Set.prototype.add]. *)
Definition setAdd (s : list string) (k : string) : list string :=
  if existsb (String.eqb k) s then s else s ++ [k].

Record PlayerManager : Type := mkManager {
  playerMap : JsMap Tracked;
  gapStates : gmap string GapState;
  ball : option string
}.

(** The player registered under [id], created from [playerData] on its
    first appearance. *)
Definition obtainPlayer (m : PlayerManager) (id : string)
    (playerData : Sample) : PlayerManager * Tracked :=
  match mapGet id (playerMap m) with
  | Some player => (m, player)
  | None =>
      let player := newPlayer playerData in
      (mkManager (mapSet id player (playerMap m)) (gapStates m)
         (if String.eqb (name playerData) "Ball" then Some id else ball m),
       player)
  end.

Definition storePlayer (m : PlayerManager) (id : string) (player : Tracked)
    (gaps : gmap string GapState) : PlayerManager :=
  mkManager (mapSet id player (playerMap m)) gaps (ball m).

(** Sub-case 2a: the gap opened for [id] when none is recorded. *)
Definition openGap (buffer : PlaybackBuffer) (nextFrame : Frame)
    (id : string) (lastKnownData : option Sample)
    (gaps : gmap string GapState) : gmap string GapState :=
  match gaps !! id with
  | Some _ => gaps
  | None =>
      match findNextAppearance buffer id (videoTime nextFrame) with
      | Some (futurePlayer, futureTime) =>
          match lastKnownData with
          | Some d =>
              <[id := mkGap (mkQV (x d / 100) 0 (y d / 100))
                        (mkQV (x futurePlayer / 100) 0
                           (y futurePlayer / 100))
                        (videoTime nextFrame) futureTime]> gaps
          | None => gaps
          end
      | None => gaps
      end
  end.

(** The body of the loop [for (const id of allKnownIds)]. *)
Definition updateOne (prevFrame nextFrame : Frame) (alpha : Q)
    (buffer : PlaybackBuffer) (m : PlayerManager) (id : string)
    : PlayerManager :=
  let currentTime :=
    videoTime prevFrame
    + (videoTime nextFrame - videoTime prevFrame) * alpha in
  let prevData := mapGet id (byId (players prevFrame)) in
  let nextData := mapGet id (byId (players nextFrame)) in
  let known := option_map playerData (mapGet id (playerMap m)) in
  let playerData :=
    match nextData, prevData with
    | Some d, _ => Some d
    | None, Some d => Some d
    | None, None => known
    end in
  match playerData with
  | None => m
  | Some playerData =>
      let '(m, player) := obtainPlayer m id playerData in
      match nextData with
      | Some nextData =>
          (* Case 1: visible in the current interpolation window. *)
          let player := setInferred false player in
          let startX :=
            match prevData with Some d => x d | None => x nextData end in
          let startY :=
            match prevData with Some d => y d | None => y nextData end in
          let targetX := startX + (x nextData - startX) * alpha in
          let targetY := startY + (y nextData - startY) * alpha in
          let interpolatedPosition :=
            mkQV (targetX / 100) 0 (targetY / 100) in
          storePlayer m id (updateTarget interpolatedPosition player)
            (delete id (gapStates m))
      | None =>
          (* Case 2: not visible. *)
          let lastKnownData :=
            match prevData with
            | Some d => Some d
            | None => option_map Playback.playerData
                        (mapGet id (playerMap m))
            end in
          let gaps := openGap buffer nextFrame id lastKnownData (gapStates m) in
          match gaps !! id with
          | Some state =>
              let player := setInferred true player in
              if Qle_bool (endTime state) currentTime then
                storePlayer m id
                  (setInferred false (updateTarget (endPos state) player))
                  (delete id gaps)
              else
                let gapDuration := endTime state - startTime state in
                let timeIntoGap := currentTime - startTime state in
                let gapAlpha := qmax 0 (qmin 1 (timeIntoGap / gapDuration)) in
                let interpolatedPosition :=
                  qlerpVectors (startPos state) (endPos state) gapAlpha in
                storePlayer m id (updateTarget interpolatedPosition player)
                  gaps
          | None => storePlayer m id (setInferred true player) gaps
          end
      end
  end.

Definition allKnownIds (m : PlayerManager) (nextFrame : Frame)
    : list string :=
  fold_left setAdd (map id (players nextFrame))
    (fold_left setAdd (map fst (playerMap m)) []).

(** [updateWithInterpolation]; an argument frame is [None] when the
    caller passed a falsy value. *)
Definition updateWithInterpolation (m : PlayerManager)
    (prevFrame nextFrame : option Frame) (alpha : Q)
    (buffer : PlaybackBuffer) : PlayerManager :=
  match prevFrame, nextFrame with
  | Some prevFrame, Some nextFrame =>
      match players prevFrame, players nextFrame with
      | [], [] =>
          mkManager
            (map (fun kv => (fst kv, setInferred true (snd kv)))
               (playerMap m))
            (gapStates m) (ball m)
      | _, _ =>
          fold_left (updateOne prevFrame nextFrame alpha buffer)
            (allKnownIds m nextFrame) m
      end
  | _, _ => m
  end.

(** One animation tick of [main.js], from the clamp of the playback
    clock to the call of [updateWithInterpolation]. *)
Definition tick (buffer : PlaybackBuffer) (m : PlayerManager)
    (playbackClock : Q) : PlayerManager :=
  let span := timeSpan buffer in
  let playbackClock :=
    if Qle_bool (snd span) playbackClock then snd span else playbackClock in
  match findFramesForInterpolation buffer playbackClock with
  | Some (prev, next) =>
      let frameDuration := videoTime next - videoTime prev in
      let interpAlpha :=
        if Qltb 0 frameDuration
        then (playbackClock - videoTime prev) / frameDuration
        else 0 in
      updateWithInterpolation m (Some prev) (Some next) interpAlpha buffer
  | None => m
  end.

Definition emptyManager : PlayerManager := mkManager [] ∅ None.

(** A session: the ticks at the given playback times, in order, from
    an empty manager. *)
Definition playbackRun (buffer : PlaybackBuffer) (times : list Q)
    : PlayerManager :=
  fold_left (tick buffer) times emptyManager.

(** The gap scenario: A is seen at t=0, missing at t=100 and seen again
    at t=300; B is seen throughout. *)
Definition gapBuffer : PlaybackBuffer :=
  [ mkFrame [mkSample "A" "Ann" "Home" 1000 2000;
             mkSample "B" "Bob" "Away" 500 500] 0;
    mkFrame [mkSample "B" "Bob" "Away" 500 500] 100;
    mkFrame [mkSample "A" "Ann" "Home" 3000 4000;
             mkSample "B" "Bob" "Away" 500 500] 300 ].
(** [push(players, meta)], for [meta = {videoTime}]. *)
Definition push (frames : PlaybackBuffer) (players : list Sample)
    (videoTime : Q) : PlaybackBuffer :=
  frames ++ [mkFrame players videoTime].

(** [frameForFraction]; [None] stands for [null] (empty buffer) and for
    [undefined] (index outside the array). *)
Definition frameForFraction (frames : PlaybackBuffer) (frac : Q)
    : option Frame :=
  match frames with
  | [] => None
  | _ =>
      let idx := Qfloor (frac * inject_Z (Z.of_nat (length frames - 1))) in
      if (idx <? 0)%Z then None else nth_error frames (Z.to_nat idx)
  end.

(** [hasInferredPlayers]. *)
Definition hasInferredPlayers (m : PlayerManager) : bool :=
  existsb (fun kv => isInferred (snd kv)) (playerMap m).

(** The interpolation factor [main.js] computes for a frame pair. *)
Definition interpAlpha (prev next : Frame) (playbackClock : Q) : Q :=
  let frameDuration := videoTime next - videoTime prev in
  if Qltb 0 frameDuration
  then (playbackClock - videoTime prev) / frameDuration
  else 0.
End Playback.

(** * Properties *)

(** ** Numbers *)

Ltac r_cases :=
  unfold Rltb, Rleb, Reqb in *;
  repeat match goal with
    | |- context [Rlt_dec ?a ?b] => destruct (Rlt_dec a b)
    | |- context [Rle_dec ?a ?b] => destruct (Rle_dec a b)
    | |- context [Req_dec_T ?a ?b] => destruct (Req_dec_T a b)
    | H : context [Rlt_dec ?a ?b] |- _ => destruct (Rlt_dec a b)
    | H : context [Rle_dec ?a ?b] |- _ => destruct (Rle_dec a b)
    | H : context [Req_dec_T ?a ?b] |- _ => destruct (Req_dec_T a b)
    end.

Lemma Rltb_true (a b : R) : (a < b)%R -> Rltb a b = true.
Proof. intros; r_cases; [reflexivity | contradiction]. Qed.

Lemma Rltb_false (a b : R) : (b <= a)%R -> Rltb a b = false.
Proof. intros; r_cases; [lra | reflexivity]. Qed.

Lemma Reqb_true (a b : R) : a = b -> Reqb a b = true.
Proof. intros; r_cases; [reflexivity | contradiction]. Qed.

Lemma Reqb_false (a b : R) : a <> b -> Reqb a b = false.
Proof. intros; r_cases; [contradiction | reflexivity]. Qed.

(** [1 / (1 + Math.exp(z))] is a number of [0, 1] or [NaN], and [NaN]
    only for [z = NaN]. *)
Lemma inv_one_plus_exp (z : num) :
  (exists v, lit 1 / (lit 1 + nexp z) = Fin v /\ (0 <= v <= 1)%R)
  \/ (z = NaN /\ lit 1 / (lit 1 + nexp z) = NaN).
Proof.
  destruct z as [r | | |]; simpl.
  - left. pose proof (exp_pos r) as Hr.
    rewrite Reqb_false by lra.
    eexists; split; [reflexivity |].
    split.
    + apply Rlt_le, Rdiv_lt_0_compat; lra.
    + apply (Rmult_le_reg_r (1 + exp r)); [lra |].
      unfold Rdiv. rewrite Rmult_assoc, Rinv_l by lra. lra.
  - left. exists 0%R. split; [reflexivity | lra].
  - left. rewrite Reqb_false by lra.
    eexists; split; [reflexivity |]. lra.
  - right. split; reflexivity.
Qed.


(** ** The calls of [calculateLs] never raise *)

Lemma calculateStrategicBonus_total lq goal defenders attackers dir :
  exists b, calculateStrategicBonus lq goal defenders attackers dir = Some b.
Proof.
  unfold calculateStrategicBonus.
  destruct (_ || _ || _); [eexists; reflexivity |].
  destruct (lastDefenderLine _ _) as [lineX [d |]];
    [| eexists; reflexivity].
  destruct (negb _); [eexists; reflexivity |].
  simpl. destruct (nle _ _); eexists; reflexivity.
Qed.

Lemma calculateThreatPotential_total lq goal defenders attackers dir :
  exists td, calculateThreatPotential lq goal defenders attackers dir = Some td.
Proof.
  unfold calculateThreatPotential.
  destruct (calculateStrategicBonus_total lq goal defenders attackers dir)
    as [b ->].
  simpl. eexists; reflexivity.
Qed.

Lemma defensiveSide_total lq defenders :
  exists t a, defensiveSide lq defenders = Some (t, a).
Proof.
  unfold defensiveSide.
  destruct (filter _ _); simpl; do 2 eexists; reflexivity.
Qed.

Lemma offensiveSide_no_carrier_total lq attackers :
  exists t a s, offensiveSide lq attackers None = Some (t, a, s).
Proof.
  unfold offensiveSide.
  destruct (potentialReceivers _ _ _); simpl; do 3 eexists; reflexivity.
Qed.

Lemma calculateExploitationScore_total lq defenders attackers :
  exists ed, calculateExploitationScore lq defenders attackers None = Some ed.
Proof.
  unfold calculateExploitationScore.
  destruct (defensiveSide_total lq defenders) as (t & a & ->).
  destruct (offensiveSide_no_carrier_total lq attackers) as (t' & a' & s & ->).
  simpl. eexists; reflexivity.
Qed.

Lemma one_minus_alpha : lit 1 - lit 0.4 = lit 0.6.
Proof. unfold lit, nsub; simpl. f_equal. lra. Qed.

(** C3: [calculateLs] returns a result, and in it the situation value, the
    raw score and the final score are the stated functions of the three
    sub-scores: [0.4*(T*E) + 0.6*((T+E)/2)], then [sv*(0.5 + 0.5*F)], then
    [1/(1+exp(-10*(raw - 0.5)))], with 0 in place of a non-finite value. *)
Theorem calculateLs_aggregation lq carrier defenders attackers goal dir :
  exists td ed r,
    calculateThreatPotential lq goal defenders attackers dir = Some td
    /\ calculateExploitationScore lq defenders attackers None = Some ed
    /\ calculateLs lq carrier defenders attackers goal dir = Some r
    /\ let T := potential td in
       let E := exploit_finalScore ed in
       let F := feasy_finalScore (calculateFeasibilityScore lq carrier defenders) in
       let logit := lit 1 / (lit 1 + nexp (- lit 10 * (raw_ls r - lit 0.5))) in
       threatPotentialScore r = T
       /\ exploitationScore r = E
       /\ feasibilityScore r = F
       /\ situationValue r = lit 0.4 * (T * E) + lit 0.6 * ((T + E) / lit 2)
       /\ raw_ls r = situationValue r * (lit 0.5 + lit 0.5 * F)
       /\ final_ls r = (if isFinite logit then logit else nzero).
Proof.
  destruct (calculateThreatPotential_total lq goal defenders attackers dir)
    as [td Htd].
  destruct (calculateExploitationScore_total lq defenders attackers)
    as [ed Hed].
  exists td, ed. unfold calculateLs. rewrite Htd, Hed.
  cbn [mbind option_bind].
  eexists. repeat split; try reflexivity.
  cbn [situationValue]. rewrite one_minus_alpha. reflexivity.
Qed.

(** ** Folds over a reordered list *)

Section FoldPermutation.
Context {S A : Type} (step : S -> A -> S) (Rel : S -> S -> Prop).
Hypothesis Rel_refl : forall s, Rel s s.
Hypothesis Rel_trans : forall a b c, Rel a b -> Rel b c -> Rel a c.
Hypothesis step_proper :
  forall s s' x, Rel s s' -> Rel (step s x) (step s' x).
Hypothesis step_swap :
  forall s x y, Rel (step (step s x) y) (step (step s y) x).

Lemma fold_left_proper (l : list A) :
  forall s s', Rel s s' -> Rel (fold_left step l s) (fold_left step l s').
Proof.
  induction l as [| x l IH]; intros s s' H; simpl; [exact H |].
  apply IH, step_proper, H.
Qed.

Lemma fold_left_perm_rel (l l' : list A) :
  Permutation l l' ->
  forall s s', Rel s s' -> Rel (fold_left step l s) (fold_left step l' s').
Proof.
  induction 1 as [| x l l' _ IH | x y l | l l' l'' _ IH1 _ IH2];
    intros s s' H; simpl.
  - exact H.
  - apply IH, step_proper, H.
  - apply fold_left_proper.
    apply Rel_trans with (step (step s x) y); [apply step_swap |].
    apply step_proper, step_proper, H.
  - apply Rel_trans with (fold_left step l' s'); [apply IH1, H |].
    apply IH2, Rel_refl.
Qed.
End FoldPermutation.

Lemma fold_left_perm {S A : Type} (step : S -> A -> S) :
  (forall s x y, step (step s x) y = step (step s y) x) ->
  forall l l', Permutation l l' ->
  forall s, fold_left step l s = fold_left step l' s.
Proof.
  intros Hswap l l' Hp s.
  apply (fold_left_perm_rel step eq); try congruence; auto.
Qed.


(** Case analysis on every number in sight, then on every comparison. *)
Ltac num_cases :=
  repeat match goal with
    | a : num |- _ => destruct a
    end;
  repeat progress (cbn; r_cases);
  try reflexivity; try lra; try (f_equal; lra); try (exfalso; lra).

Lemma nadd_swap (s x y : num) : s + x + y = s + y + x.
Proof. num_cases. Qed.

Lemma nmin_swap (s x y : num) : nmin (nmin s x) y = nmin (nmin s y) x.
Proof. num_cases. Qed.

Lemma nmax_swap (s x y : num) : nmax (nmax s x) y = nmax (nmax s y) x.
Proof. num_cases. Qed.


Lemma nmin_list_perm (l l' : list num) :
  Permutation l l' -> nmin_list l = nmin_list l'.
Proof. intros H. apply fold_left_perm; [exact nmin_swap | exact H]. Qed.

Lemma nmax_list_perm (l l' : list num) :
  Permutation l l' -> nmax_list l = nmax_list l'.
Proof. intros H. apply fold_left_perm; [exact nmax_swap | exact H]. Qed.

(** ** The scores do not depend on the order of the player lists *)

Lemma perm_nil_cons {A : Type} (l l' : list A) :
  Permutation l l' -> (l = [] <-> l' = []).
Proof.
  intros H; split; intros ->.
  - apply Permutation_nil, H.
  - apply Permutation_nil, Permutation_sym, H.
Qed.













Lemma calculateLs_total lq carrier defenders attackers goal dir :
  exists r, calculateLs lq carrier defenders attackers goal dir = Some r.
Proof.
  unfold calculateLs.
  destruct (calculateThreatPotential_total lq goal defenders attackers dir)
    as [td ->].
  destruct (calculateExploitationScore_total lq defenders attackers)
    as [ed ->].
  cbn [mbind option_bind]. eexists; reflexivity.
Qed.



(** ** Empty teams *)

Lemma tanh_zero : tanh 0 = 0%R.
Proof. unfold tanh. rewrite sinh_0. unfold Rdiv. apply Rmult_0_l. Qed.

Lemma exploitation_empty lq carrier :
  exists ed,
    calculateExploitationScore lq [] [] carrier = Some ed
    /\ exploit_finalScore ed = Fin (0.2 * (1 - 0.6 * exp (- 9.9))).
Proof.
  unfold calculateExploitationScore, defensiveSide, offensiveSide,
    potentialReceivers.
  cbn [filter mbind option_bind].
  eexists; split; [reflexivity |].
  cbn [exploit_finalScore]. unfold powOne, lit, nzero.
  cbn.
  replace (- (5) * (0 + - 0))%R with 0%R by lra. rewrite exp_0.
  rewrite (Reqb_false (1 + 1) 0) by lra.
  rewrite (Reqb_false (1 + 0 * 5) 0) by lra.
  rewrite (Rltb_false 0 (99 + - (99))) by lra.
  cbn. replace (0 * 0.2)%R with 0%R by lra. rewrite tanh_zero.
  replace (- (0.1) * 99)%R with (- 9.9)%R by lra.
  pose proof (exp_pos (- 9.9)) as Hpos.
  assert (exp (- 9.9) < 1)%R as Hlt.
  { rewrite <- exp_0. apply exp_increasing. lra. }
  match goal with
  | |- context [Rltb ?a 1] =>
      replace a with (0.2 * (1 - 0.6 * exp (- 9.9)))%R by lra
  end.
  rewrite Rltb_true by lra. reflexivity.
Qed.

(** C8: with no defenders and no attackers the exploitation score is the
    finite, non-negative number [0.2 * (1 - 0.6 * exp(-9.9))], both of its
    divisors being non-zero ([1 + 5*0] and [1 + exp(0)]), and the strategic
    bonus is exactly 0. *)
Theorem empty_teams_scores lq goal carrier dir :
  (exists ed v,
      calculateExploitationScore lq [] [] carrier = Some ed
      /\ exploit_finalScore ed = Fin v /\ (0 <= v)%R
      /\ defSwarmScore ed = Fin 1
      /\ overloadFactor ed = Fin (1 / 2))
  /\ calculateStrategicBonus lq goal [] [] dir = Some nzero.
Proof.
  split; [| reflexivity].
  destruct (exploitation_empty lq carrier) as (ed & Hed & Hv).
  exists ed, (0.2 * (1 - 0.6 * exp (- 9.9)))%R.
  split; [exact Hed |]. split; [exact Hv |].
  split.
  - pose proof (exp_pos (- 9.9)) as Hpos.
    assert (exp (- 9.9) < 1)%R as Hlt
      by (rewrite <- exp_0; apply exp_increasing; lra).
    nra.
  - revert Hed.
    unfold calculateExploitationScore, defensiveSide, offensiveSide,
      potentialReceivers.
    cbn [filter mbind option_bind].
    intros [= <-]. cbn [defSwarmScore overloadFactor].
    unfold lit, nzero. cbn [nmul nadd nsub nneg nexp].
    replace (- (5) * (0 + - 0))%R with 0%R by lra. rewrite exp_0.
    replace (1 + 0 * 5)%R with 1%R by lra.
    replace (1 + 1)%R with 2%R by lra.
    cbn [ndiv]. rewrite !Reqb_false by lra.
    split; f_equal; lra.
Qed.

(** ** The playback buffer and the gap fill *)

Module PlaybackFacts.
Import Playback.
Local Open Scope Q_scope.

(** C9: on a buffer of three frames stamped 0, 100 and 200, a query at
    150 yields the frames at 100 and 200, a query at -5 the first frame
    twice, and a query at 500 the last frame twice. *)
Theorem three_frame_lookup (p0 p1 p2 : list Sample) :
  let f0 := mkFrame p0 0 in
  let f1 := mkFrame p1 100 in
  let f2 := mkFrame p2 200 in
  findFramesForInterpolation [f0; f1; f2] 150 = Some (f1, f2)
  /\ findFramesForInterpolation [f0; f1; f2] (-5) = Some (f0, f0)
  /\ findFramesForInterpolation [f0; f1; f2] 500 = Some (f2, f2).
Proof. repeat split. Qed.

(** C10: a buffer of fewer than two frames answers [null] to every
    query. *)
Theorem short_buffer_null (frames : PlaybackBuffer) (playbackClock : Q) :
  (length frames < 2)%nat ->
  findFramesForInterpolation frames playbackClock = None.
Proof.
  intros H. unfold findFramesForInterpolation.
  destruct (Nat.ltb_spec (length frames) 2) as [_ | Hge];
    [reflexivity | lia].
Qed.

Lemma short_buffer_null_witness :
  (length [mkFrame [] 5] < 2)%nat
  /\ findFramesForInterpolation [mkFrame [] 5] 5 = None.
Proof.
  split; [simpl; lia |].
  apply (short_buffer_null [mkFrame [] 5] 5). simpl; lia.
Defined.

(** C4: on the buffer of [gapBuffer] (entity A seen at t=0 at (10, 20),
    missing at t=100, seen again at t=300 at (30, 40)), the updates at
    playback times 0, 50, 100, 150, 200 leave A at its t=300 position
    (30, 40), not at the midpoint (20, 30), and not inferred; A is
    inferred after the updates that end at 50 and at 100 and no longer
    after the one that ends at 150. *)
Theorem gap_fill_snaps_to_reappearance :
  let after ts := mapGet "A" (playerMap (playbackRun gapBuffer ts)) in
  (exists p, after [0; 50; 100; 150; 200] = Some p
             /\ isInferred p = false
             /\ qx (targetRoot p) == 30 /\ qz (targetRoot p) == 40)
  /\ (exists p, after [0; 50] = Some p /\ isInferred p = true)
  /\ (exists p, after [0; 50; 100] = Some p /\ isInferred p = true)
  /\ (exists p, after [0; 50; 100; 150] = Some p /\ isInferred p = false).
Proof.
  cbv zeta. repeat split; eexists; (split; [vm_compute; reflexivity |]);
    repeat split; reflexivity.
Qed.
End PlaybackFacts.

(** ** The point-in-triangle test on degenerate triangles *)

Lemma tri_s_ground px pz ax az cx cz (py ay cy : num) :
  tri_s (mkV3 (Fin px) py (Fin pz)) (mkV3 (Fin ax) ay (Fin az))
    (mkV3 (Fin cx) cy (Fin cz))
  = Fin (az * cx - ax * cz + (cz - az) * px + (ax - cx) * pz).
Proof. unfold tri_s; cbn; f_equal; lra. Qed.

Lemma tri_t_ground px pz ax az bx bz (py ay by_ : num) :
  tri_t (mkV3 (Fin px) py (Fin pz)) (mkV3 (Fin ax) ay (Fin az))
    (mkV3 (Fin bx) by_ (Fin bz))
  = Fin (ax * bz - az * bx + (az - bz) * px + (bx - ax) * pz).
Proof. unfold tri_t; cbn; f_equal; lra. Qed.

Lemma tri_A_ground ax az bx bz cx cz (ay by_ cy : num) :
  tri_A (mkV3 (Fin ax) ay (Fin az)) (mkV3 (Fin bx) by_ (Fin bz))
    (mkV3 (Fin cx) cy (Fin cz))
  = Fin (- bz * cx + az * (cx - bx) + ax * (bz - cz) + bx * cz).
Proof. unfold tri_A; cbn; f_equal; lra. Qed.

(** On a triangle of zero area with finite ground coordinates the test
    answers [true] exactly when [s = 0] and [t <= 0]. *)
Lemma degenerate_triangle_test px pz ax az bx bz cx cz (py ay by_ cy : num) :
  let p := mkV3 (Fin px) py (Fin pz) in
  let a := mkV3 (Fin ax) ay (Fin az) in
  let b := mkV3 (Fin bx) by_ (Fin bz) in
  let c := mkV3 (Fin cx) cy (Fin cz) in
  let s := (az * cx - ax * cz + (cz - az) * px + (ax - cx) * pz)%R in
  let t := (ax * bz - az * bx + (az - bz) * px + (bx - ax) * pz)%R in
  tri_A a b c = Fin 0 ->
  isPointInTriangle (Some p) (Some a) (Some b) (Some c)
  = Reqb s 0 && Rleb t 0.
Proof.
  intros p a b c s t HA. unfold isPointInTriangle.
  rewrite HA. subst p a b c.
  rewrite tri_s_ground, tri_t_ground. fold s t.
  unfold nle, nge, nle, nzero. cbn [nlt neqb nadd].
  generalize s t; intros s' t'.
  r_cases; cbn; try reflexivity; exfalso; lra.
Qed.

Lemma Rleb_true (a b : R) : (a <= b)%R -> Rleb a b = true.
Proof. intros; r_cases; [reflexivity | contradiction]. Qed.

(** C6: a triangle whose three vertices share one finite ground point has
    zero area, and the test answers [true] for every point with finite
    ground coordinates; the collinear triangle (0,0), (1,0), (0,0) has
    zero area too, and the test places the far point (50, -30) inside
    it. *)
Theorem degenerate_triangle_reports_inside px pz ax az
    (py ay ay' ay'' : num) :
  let p := mkV3 (Fin px) py (Fin pz) in
  let a := mkV3 (Fin ax) ay (Fin az) in
  let a' := mkV3 (Fin ax) ay' (Fin az) in
  let a'' := mkV3 (Fin ax) ay'' (Fin az) in
  let o := mkV3 (Fin 0) nzero (Fin 0) in
  let e := mkV3 (Fin 1) nzero (Fin 0) in
  (tri_A a a' a'' = Fin 0
   /\ isPointInTriangle (Some p) (Some a) (Some a') (Some a'') = true)
  /\ (tri_A o e o = Fin 0
      /\ isPointInTriangle (Some (mkV3 (Fin 50) nzero (Fin (-30))))
           (Some o) (Some e) (Some o) = true).
Proof.
  intros p a a' a'' o e.
  assert (tri_A a a' a'' = Fin 0) as H1
    by (subst a a' a''; rewrite tri_A_ground; f_equal; ring).
  assert (tri_A o e o = Fin 0) as H2
    by (subst o e; rewrite tri_A_ground; f_equal; ring).
  split; (split; [assumption |]).
  - subst p a a' a''.
    rewrite (degenerate_triangle_test px pz ax az ax az ax az py ay ay' ay'' H1).
    rewrite Reqb_true by ring. rewrite Rleb_true; [reflexivity |].
    apply Req_le. ring.
  - subst o e.
    rewrite (degenerate_triangle_test 50 (-30) 0 0 1 0 0 0
               nzero nzero nzero nzero H2).
    rewrite Reqb_true by ring. rewrite Rleb_true; [reflexivity | lra].
Qed.

(** ** The pressure factor *)

Lemma distanceTo_self x y z :
  distanceTo (mkV3 (Fin x) (Fin y) (Fin z)) (mkV3 (Fin x) (Fin y) (Fin z))
  = Fin 0.
Proof.
  unfold distanceTo, distanceToSquared. cbn.
  replace ((x + - x) * (x + - x) + (y + - y) * (y + - y)
           + (z + - z) * (z + - z))%R with 0%R by ring.
  rewrite Rltb_false by lra. f_equal. apply sqrt_0.
Qed.

Lemma logistic_finite (rate mid x : R) :
  logistic (Fin rate) (Fin mid) (Fin x)
  = Fin (1 / (1 + exp (- rate * (x - mid)))).
Proof.
  unfold logistic, lit. cbn.
  pose proof (exp_pos (- rate * (x + - mid))) as Hp.
  rewrite Reqb_false by lra. reflexivity.
Qed.

(** C7: a defender standing exactly on the carrier is at distance 0, yet
    the pressure factor is the logistic value at the sentinel 99, which
    differs from the logistic value at 0; the reported distance is 99. *)
Theorem pressure_factor_at_distance_zero lq x y z n m tm tm' rl rl' v v' s s' :
  let here := mkV3 (Fin x) (Fin y) (Fin z) in
  let carrier := mkPlayer n tm rl here v s in
  let defender := mkPlayer m tm' rl' here v' s' in
  let f := calculateFeasibilityScore lq carrier [defender] in
  snd (findClosestPlayer (position carrier) [defender]) = Fin 0
  /\ pressureDist f = lit 99
  /\ pressureFactor f = logistic (lit 1.5) (lit 3) (lit 99)
  /\ pressureFactor f <> logistic (lit 1.5) (lit 3) (Fin 0).
Proof.
  intros here carrier defender f.
  assert (snd (findClosestPlayer (position carrier) [defender]) = Fin 0) as Hd.
  { unfold findClosestPlayer, closestStep. subst carrier defender here.
    cbn [fold_left position snd].
    rewrite distanceTo_self. reflexivity. }
  assert (pressureFactor f = logistic (lit 1.5) (lit 3) (lit 99)) as Hf.
  { subst f. unfold calculateFeasibilityScore. cbn [pressureFactor].
    rewrite Hd. unfold nor, falsy. rewrite Reqb_true by reflexivity.
    reflexivity. }
  split; [exact Hd |]. split; [| split; [exact Hf |]].
  - subst f. unfold calculateFeasibilityScore. cbn [pressureDist].
    rewrite Hd. unfold nor, falsy. rewrite Reqb_true by reflexivity.
    reflexivity.
  - rewrite Hf. unfold lit. rewrite !logistic_finite. intros [= H].
    assert (exp (- (1.5) * (99 - 3)) < exp (- (1.5) * (0 - 3)))%R as Hlt
      by (apply exp_increasing; lra).
    
    apply (f_equal Rinv) in H. unfold Rdiv in H.
    rewrite !Rmult_1_l, !Rinv_inv in H. lra.
Qed.

(** With no defender at all the scan returns [Infinity], which is truthy:
    the sentinel is not substituted, the reported distance is [Infinity]
    and the factor is exactly 1. *)
Lemma pressure_factor_no_defender lq carrier :
  let f := calculateFeasibilityScore lq carrier [] in
  pressureDist f = PInf /\ pressureFactor f = Fin 1.
Proof.
  cbv zeta. unfold calculateFeasibilityScore.
  cbn [pressureDist pressureFactor findClosestPlayer fold_left snd].
  unfold nor, falsy, lit. cbn. unfold inf_times.
  rewrite (Rltb_false 0) by lra. rewrite Rltb_true by lra. cbn.
  rewrite Reqb_false by lra. split; [reflexivity | f_equal; lra].
Qed.

(** ** The offensive side of the exploitation score *)

(** As called by [calculateLs], the offensive side is the direct-arrival
    model (minimum speed 1.0) over every attacker near the quadrant. *)
Lemma offensiveSide_no_carrier lq attackers :
  offensiveSide lq attackers None
  = match filter (nearLq lq) attackers with
    | [] => Some (lit 99, nzero, nzero)
    | rs =>
        let m := directMetrics (center lq) rs in
        let agg := nsum (map (fun t => nexp (- lit 0.15 * t)) (ttas m)) in
        Some (fastestTimeToArrival m, agg, ntanh (agg * lit 2))
    end.
Proof.
  unfold offensiveSide, potentialReceivers, notCarrier.
  cbn [andb]. destruct (filter _ attackers); reflexivity.
Qed.

Lemma distance_3_4 :
  distanceTo (mkV3 (Fin 3) nzero (Fin 4)) origin = Fin 5.
Proof.
  unfold distanceTo, distanceToSquared, origin, nzero. cbn.
  match goal with
  | |- context [sqrt ?a] => replace a with (5 * 5)%R by lra
  end.
  rewrite Rltb_false by lra. rewrite sqrt_square by lra. reflexivity.
Qed.

(** C1: with the carrier as the only attacker, 5 units from the quadrant
    centre at speed 2, [calculateLs] keeps the carrier among the receivers
    and times it with the direct-arrival model: the fastest offensive
    arrival is 5 / max(2, 1) = 2.5 and not the sentinel 99 of an empty
    receiver set. *)
Theorem calculateLs_counts_carrier_as_receiver :
  let c := mkPlayer 4 "Home" "CM" (mkV3 (Fin 3) nzero (Fin 4)) origin
             (Some (Fin 2)) in
  let lq := mkLQ origin [] (Fin 100) in
  let goal := mkGoal (mkV3 (Fin 52.5) nzero nzero) in
  exists r,
    calculateLs lq c [] [c] goal (Fin 1) = Some r
    /\ potentialReceivers lq [c] None = [c]
    /\ potentialReceivers lq [c] (Some c) = []
    /\ attFastestTime (exploit r) = Fin 2.5
    /\ attFastestTime (exploit r) <> lit 99.
Proof.
  intros c lq goal.
  assert (nearLq lq c = true) as Hnear.
  { unfold nearLq. subst c lq. cbn [position center].
    rewrite distance_3_4. unfold lit. cbn. apply Rltb_true. lra. }
  assert (potentialReceivers lq [c] None = [c]) as Hrecv.
  { unfold potentialReceivers. cbn [filter notCarrier andb].
    rewrite Hnear. reflexivity. }
  assert (exists agg s, offensiveSide lq [c] None = Some (Fin 2.5, agg, s))
    as (agg & s & Hoff).
  { unfold offensiveSide. rewrite Hrecv.
    unfold calculateTeamControlMetrics, carrierArg, directMetrics.
    cbn [mbind option_bind fastestTimeToArrival ttas map].
    assert (directTTA (center lq) c = Fin 2.5) as ->.
    { unfold directTTA. subst c lq. cbn [position center speedOf currentSpeed isNaN].
      rewrite distance_3_4. unfold lit. cbn.
      rewrite (Rltb_false 2 1) by lra. cbn.
      rewrite Reqb_false by lra. f_equal. lra. }
    do 2 eexists. reflexivity. }
  destruct (calculateThreatPotential_total lq goal [] [c] (Fin 1)) as [td Htd].
  destruct (defensiveSide_total lq []) as (dt & da & Hdef).
  unfold calculateLs, calculateExploitationScore.
  rewrite Htd, Hdef, Hoff. cbn [mbind option_bind].
  eexists. split; [reflexivity |]. split; [exact Hrecv |].
  split.
  { unfold potentialReceivers. cbn [filter notCarrier andb].
    rewrite Nat.eqb_refl. reflexivity. }
  cbn [exploit attFastestTime].
  split; [reflexivity |]. unfold lit. intros [= H]. lra.
Qed.

(** ** The defensive line *)

Ltac decide_Rltb :=
  repeat match goal with
    | |- context [Rltb ?a ?b] =>
        first
          [ rewrite (Rltb_true a b)
              by (unfold Rabs; repeat destruct (Rcase_abs _); lra)
          | rewrite (Rltb_false a b)
              by (unfold Rabs; repeat destruct (Rcase_abs _); lra) ]
    end.

Ltac eval_sort :=
  unfold sortBy;
  repeat progress
    (cbn [fold_left insertSorted byDepth distToGoalLine standing position
            vx nsub nadd nneg nmul nabs nlt lit nzero];
     decide_Rltb).

(** C5, at a roster of six: the keeper at x = -50, a back four at
    -40, -38, -36, -34 and a striker at +20, defending the goal at
    x = -52.5 (the attack runs towards negative x).  The four outfield
    players deepest to that goal average -37; the extractor returns -22,
    the mean of the four players nearest the opposite goal, and the line
    metrics taken towards the defended goal return -41, the keeper
    included. *)
Theorem defensive_line_depth_of_awaySquad :
  defensive_line_depth (mkRoster awaySquad "Home" "Away") "Home" (Fin (-1))
  = Fin (-22)
  /\ line_depth (getDefensiveLineMetrics awaySquad (Fin (-1))) = Fin (-41)
  /\ Fin (-22) <> Fin ((-40 + -38 + -36 + -34) / 4)
  /\ Fin (-41) <> Fin ((-40 + -38 + -36 + -34) / 4).
Proof.
  split; [| split; [| split; intros [= H]; lra]].
  - unfold defensive_line_depth.
    cbn [home_team away_team String.eqb Ascii.eqb Bool.eqb getAllTeamPlayers
           registered].
    change (getAllTeamPlayers (mkRoster awaySquad "Home" "Away") "Away")
      with awaySquad.
    unfold getDefensiveLineMetrics, awaySquad. eval_sort.
    cbn [firstn length fold_left line_depth position vx standing nadd ofNat
           ndiv nzero INR].
    rewrite Reqb_false by lra. f_equal. lra.
  - unfold getDefensiveLineMetrics, awaySquad. eval_sort.
    cbn [firstn length fold_left line_depth position vx standing nadd ofNat
           ndiv nzero INR].
    rewrite Reqb_false by lra. f_equal. lra.
Qed.

(** ** The Team Control model *)

Lemma nsqrt_duration (a : num) : durationLike (nsqrt a).
Proof.
  destruct a as [r | | |]; cbn; try exact I.
  unfold Rltb; destruct (Rlt_dec r 0); cbn; [exact I | apply sqrt_pos].
Qed.

Lemma distanceTo_duration (a b : Vector3) : durationLike (distanceTo a b).
Proof. apply nsqrt_duration. Qed.

Lemma speedOf_not_NaN (p : Player) : speedOf p <> NaN.
Proof.
  unfold speedOf. destruct (currentSpeed p) as [[r | | |] |]; cbn; discriminate.
Qed.

(** [Math.max(speed, floor)] of a number and a positive literal is at
    least the literal, or [Infinity]. *)
Lemma effective_speed (s : num) (floor : R) :
  s <> NaN ->
  (exists m, nmax s (Fin floor) = Fin m /\ (floor <= m)%R)
  \/ nmax s (Fin floor) = PInf.
Proof.
  intros Hs. destruct s as [r | | |]; cbn.
  - left. unfold Rltb; destruct (Rlt_dec r floor); eexists; split;
      try reflexivity; lra.
  - right; reflexivity.
  - left; eexists; split; [reflexivity | lra].
  - contradiction.
Qed.

Lemma duration_div (d s : num) (floor : R) :
  (0 < floor)%R -> durationLike d -> s <> NaN ->
  durationLike (d / nmax s (Fin floor)).
Proof.
  intros Hf Hd Hs.
  destruct (effective_speed s floor Hs) as [(m & -> & Hm) | ->];
    destruct d as [r | | |]; cbn in *; try exact I; try contradiction.
  - rewrite Reqb_false by lra. cbn.
    apply Rmult_le_pos; [exact Hd |]. apply Rlt_le, Rinv_0_lt_compat; lra.
  - rewrite Rltb_false by lra. exact I.
  - lra.
Qed.

Lemma nmin_duration (a b : num) :
  durationLike a -> durationLike b -> durationLike (nmin a b).
Proof.
  destruct a, b; cbn; intros; try exact I; try contradiction;
    r_cases; cbn; assumption.
Qed.

Lemma nmax_duration (a b : num) :
  durationLike a -> durationLike b -> durationLike (nmax a b).
Proof.
  destruct a, b; cbn; intros; try exact I; try contradiction;
    r_cases; cbn; assumption.
Qed.

Lemma nmin_list_duration (l : list num) :
  Forall durationLike l -> durationLike (nmin_list l).
Proof.
  unfold nmin_list. assert (durationLike PInf) as H0 by exact I.
  revert H0. generalize PInf.
  induction l as [| a l IH]; intros acc Hacc Hl; cbn; [exact Hacc |].
  inversion_clear Hl as [| ? ? Ha Hl'].
  apply IH; [apply nmin_duration; assumption | exact Hl'].
Qed.

Lemma finiteOr99_duration (a : num) :
  durationLike a -> exists t, finiteOr99 a = Fin t /\ (0 <= t)%R.
Proof.
  destruct a as [r | | |]; cbn; intros H; try contradiction;
    eexists; (split; [reflexivity |]); first [exact H | lra].
Qed.

Lemma directTTA_duration target p : durationLike (directTTA target p).
Proof.
  unfold directTTA, lit.
  apply duration_div; [lra | apply distanceTo_duration | apply speedOf_not_NaN].
Qed.

Lemma interceptTTA_duration target c p :
  durationLike (interceptTTA target c p).
Proof.
  unfold interceptTTA, timeForBallToTravel, lit.
  apply nmax_duration.
  - pose proof (distanceTo_duration c target) as H.
    destruct (distanceTo c target) as [r | | |]; cbn in *;
      try exact I; try contradiction.
    + rewrite Reqb_false by lra. cbn.
      apply Rmult_le_pos; [exact H |]. lra.
    + rewrite Rltb_false by lra. exact I.
  - apply duration_div;
      [lra | apply distanceTo_duration | apply speedOf_not_NaN].
Qed.

Lemma teamControl_durations target c players :
  (exists t, fastestTimeToArrival (directMetrics target players) = Fin t
             /\ (0 <= t)%R)
  /\ Forall durationLike (ttas (directMetrics target players))
  /\ (exists t, fastestTimeToArrival (interceptMetrics target c players) = Fin t
                /\ (0 <= t)%R)
  /\ Forall durationLike (ttas (interceptMetrics target c players)).
Proof.
  assert (Forall durationLike (map (directTTA target) players)) as Hd.
  { apply Forall_map, Forall_forall. intros; apply directTTA_duration. }
  assert (Forall durationLike (map (interceptTTA target c) players)) as Hi.
  { apply Forall_map, Forall_forall. intros; apply interceptTTA_duration. }
  unfold directMetrics, interceptMetrics.
  destruct players as [| p ps]; cbn [fastestTimeToArrival ttas].
  - repeat split; try constructor; exists 99%R; (split; [reflexivity | lra]).
  - repeat split; try assumption;
      apply finiteOr99_duration, nmin_list_duration; assumption.
Qed.

(** X1: whatever the positions, velocities and speeds (non-finite ones
    included), both Team Control models report a finite, non-negative
    fastest time, and every listed time is non-negative, [Infinity] or
    [NaN]. *)
Theorem teamControl_fastest_is_finite target c players :
  (exists t, fastestTimeToArrival (directMetrics target players) = Fin t
             /\ (0 <= t)%R)
  /\ Forall durationLike (ttas (directMetrics target players))
  /\ (exists t, fastestTimeToArrival (interceptMetrics target c players) = Fin t
                /\ (0 <= t)%R)
  /\ Forall durationLike (ttas (interceptMetrics target c players)).
Proof. apply teamControl_durations. Qed.

(** X2: handed a [Player] object as carrier, as the signature of
    [calculateExploitationScore] suggests, the function raises as soon as
    one other attacker stands within the analysis radius; with no such
    attacker it returns, with the sentinel 99 and a zero support score. *)
Theorem exploitation_with_carrier_object lq defenders attackers carrier :
  match potentialReceivers lq attackers (Some carrier) with
  | [] =>
      exists ed,
        calculateExploitationScore lq defenders attackers (Some carrier)
        = Some ed
        /\ attFastestTime ed = lit 99 /\ attSupportScore ed = nzero
  | _ :: _ =>
      calculateExploitationScore lq defenders attackers (Some carrier) = None
  end.
Proof.
  unfold calculateExploitationScore.
  destruct (defensiveSide_total lq defenders) as (t & a & ->).
  cbn [mbind option_bind]. unfold offensiveSide.
  destruct (potentialReceivers lq attackers (Some carrier)) as [| r rs].
  - cbn [mbind option_bind]. eexists; repeat split; reflexivity.
  - reflexivity.
Qed.

(** ** Ranges of the sub-scores *)

Lemma withinOrNaN_duration lo hi a :
  (0 <= lo)%R -> withinOrNaN lo hi a -> durationLike a.
Proof. destruct a; cbn; intros; try tauto; lra. Qed.

Lemma within_duration lo hi a :
  (0 <= lo)%R -> within lo hi a -> durationLike a.
Proof. destruct a; cbn; intros; try tauto; lra. Qed.

Lemma nadd_duration a b :
  durationLike a -> durationLike b -> durationLike (a + b).
Proof. destruct a, b; cbn; intros; try tauto; lra. Qed.

Lemma nmul_duration a b :
  durationLike a -> durationLike b -> durationLike (a * b).
Proof.
  destruct a, b; cbn; intros; try tauto; unfold inf_times;
    r_cases; cbn; try tauto; try lra.
  apply Rmult_le_pos; assumption.
Qed.

Lemma nexp_duration a : durationLike (nexp a).
Proof.
  destruct a; cbn; try exact I; [apply Rlt_le, exp_pos | lra].
Qed.

Lemma unit_logistic z : withinOrNaN 0 1 (lit 1 / (lit 1 + nexp z)).
Proof.
  destruct (inv_one_plus_exp z) as [(v & -> & Hv) | [_ ->]];
    [exact Hv | exact I].
Qed.

(** [Math.min(1.0, isFinite(x) ? x : 0)] of a non-negative quantity. *)
Lemma capped_score a :
  durationLike a -> within 0 1 (nmin (lit 1) (finiteOr0 a)).
Proof.
  destruct a as [r | | |]; cbn; intros H; try contradiction;
    r_cases; cbn; lra.
Qed.

(** [isFinite(Math.min(1.0, x)) ? ... : 0] of a non-negative quantity. *)
Lemma capped_score' a :
  durationLike a -> within 0 1 (finiteOr0 (nmin (lit 1) a)).
Proof.
  destruct a as [r | | |]; cbn; intros H; try contradiction;
    r_cases; cbn; lra.
Qed.

Lemma strategic_bonus_duration lq goal defenders attackers dir :
  exists b, calculateStrategicBonus lq goal defenders attackers dir = Some b
            /\ within 0 0.95 b.
Proof.
  unfold calculateStrategicBonus.
  assert (within 0 0.95 nzero) as H0 by (cbn; lra).
  destruct (_ || _ || _); [eexists; split; [reflexivity | exact H0] |].
  destruct (lastDefenderLine _ _) as [lineX [d |]];
    [| eexists; split; [reflexivity | exact H0]].
  destruct (negb _); [eexists; split; [reflexivity | exact H0] |].
  cbn [calculateTeamControlMetrics mbind option_bind].
  destruct (nle _ _); [eexists; split; [reflexivity | exact H0] |].
  eexists; split; [reflexivity |].
  match goal with
  | |- context [nexp ?z] => pose proof (unit_logistic z) as Hl
  end.
  destruct (lit 1 / _) as [v | | |]; cbn in *; try contradiction; lra.
Qed.

(** X3: the strategic bonus is always a number of [0, 0.95], and it is 0
    when the attacking direction is 0 or [NaN]. *)
Theorem strategic_bonus_range lq goal defenders attackers dir :
  (exists b, calculateStrategicBonus lq goal defenders attackers dir = Some b
             /\ within 0 0.95 b)
  /\ calculateStrategicBonus lq goal defenders attackers nzero = Some nzero
  /\ calculateStrategicBonus lq goal defenders attackers NaN = Some nzero.
Proof.
  split; [apply strategic_bonus_duration |].
  unfold calculateStrategicBonus.
  assert (falsy nzero = true) as -> by (cbn; apply Reqb_true; reflexivity).
  cbn [falsy]. rewrite !orb_true_r. split; reflexivity.
Qed.

Lemma lit_duration r : (0 <= r)%R -> durationLike (lit r).
Proof. intros H; exact H. Qed.

(** X4: the threat potential is a number of [0, 1] for every quadrant,
    goal, direction and pair of teams. *)
Theorem threat_potential_range lq goal defenders attackers dir :
  exists td,
    calculateThreatPotential lq goal defenders attackers dir = Some td
    /\ within 0 1 (potential td)
    /\ withinOrNaN 0 1 (proximityThreat td)
    /\ within 0 0.95 (strategicThreat td)
    /\ withinOrNaN 1 1.4 (areaAmplifier td).
Proof.
  unfold calculateThreatPotential.
  destruct (strategic_bonus_duration lq goal defenders attackers dir)
    as (b & -> & Hb).
  cbn [mbind option_bind]. eexists; split; [reflexivity |].
  cbn [potential proximityThreat strategicThreat areaAmplifier].
  match goal with
  | |- context [nmax (lit 1 / (lit 1 + nexp ?z)) b] =>
      pose proof (unit_logistic z) as Hprox
  end.
  match goal with
  | |- context [nexp (- lit 0.04 * ?a)] =>
      pose proof (unit_logistic (- lit 0.04 * a)) as Harea
  end.
  assert (withinOrNaN 1 1.4
            (lit 1 + lit 1 / (lit 1 + nexp (- lit 0.04 * (area lq - lit 75)))
                     * lit 0.4)) as Hamp.
  { revert Harea. generalize (lit 1 / (lit 1 + nexp (- lit 0.04 * (area lq - lit 75)))).
    intros [v | | |]; cbn; intros Hv; try contradiction; [lra | exact I]. }
  split; [| split; [exact Hprox | split; [exact Hb | exact Hamp]]].
  apply (capped_score (_ * _)).
  apply nmul_duration;
    [| apply (withinOrNaN_duration 1 1.4); [lra | exact Hamp]].
  apply nadd_duration; apply nmul_duration;
    try (apply lit_duration; lra); [| apply nexp_duration].
  apply nmax_duration;
    [apply (withinOrNaN_duration 0 1); [lra | exact Hprox]
    | apply (within_duration 0 0.95); [lra | exact Hb]].
Qed.

Lemma exp_nonpos_unit (x : R) : (x <= 0)%R -> (0 < exp x <= 1)%R.
Proof.
  intros H. split; [apply exp_pos |].
  destruct H as [H | ->]; [| rewrite exp_0; lra].
  rewrite <- exp_0. apply Rlt_le, exp_increasing, H.
Qed.

Lemma tanh_unit (x : R) : (0 <= x)%R -> (0 <= tanh x <= 1)%R.
Proof.
  intros H. unfold tanh, sinh, cosh.
  pose proof (exp_pos x) as Hp. pose proof (exp_pos (- x)) as Hn.
  assert (exp (- x) <= exp x)%R as Hle.
  { destruct H as [H | <-]; [| rewrite Ropp_0; lra].
    apply Rlt_le, exp_increasing. lra. }
  split.
  - apply Rmult_le_pos; [lra |]. apply Rlt_le, Rinv_0_lt_compat. lra.
  - apply (Rmult_le_reg_r ((exp x + exp (- x)) / 2)); [lra |].
    unfold Rdiv at 1. rewrite Rmult_assoc, Rinv_l by lra. lra.
Qed.

Lemma ntanh_unit a : durationLike a -> withinOrNaN 0 1 (ntanh a).
Proof.
  destruct a as [r | | |]; cbn; intros H; try contradiction;
    [apply tanh_unit, H | lra | exact I].
Qed.

(** [Math.exp(-k * t)] of a duration [t], for a positive rate [k]. *)
Lemma decay_term (k : R) (t : num) :
  (0 < k)%R -> durationLike t -> withinOrNaN 0 1 (nexp (- lit k * t)).
Proof.
  intros Hk. destruct t as [r | | |]; cbn; intros H; try contradiction.
  - pose proof (exp_nonpos_unit (- k * r)) as He.
    assert (- k * r <= 0)%R by nra. lra.
  - unfold inf_times. rewrite Rltb_false, Rltb_true by lra. cbn. lra.
  - exact I.
Qed.

Lemma nsum_nonneg (l : list num) :
  Forall (withinOrNaN 0 1) l -> nonnegOrNaN (nsum l).
Proof.
  unfold nsum. assert (nonnegOrNaN nzero) as H0 by (cbn; lra).
  revert H0. generalize nzero.
  induction l as [| a l IH]; intros acc Hacc Hl; cbn; [exact Hacc |].
  inversion_clear Hl as [| ? ? Ha Hl'].
  apply IH; [| exact Hl'].
  destruct acc, a; cbn in *; try tauto; lra.
Qed.

Lemma decay_sum (k : R) (ts : list num) :
  (0 < k)%R -> Forall durationLike ts ->
  nonnegOrNaN (nsum (map (fun t => nexp (- lit k * t)) ts)).
Proof.
  intros Hk Hts. apply nsum_nonneg, Forall_map.
  eapply Forall_impl; [| exact Hts]. intros t; apply decay_term, Hk.
Qed.

Lemma defensiveSide_range lq defenders :
  exists t a, defensiveSide lq defenders = Some (Fin t, a)
              /\ (0 <= t)%R /\ nonnegOrNaN a.
Proof.
  unfold defensiveSide.
  destruct (filter (nearLq lq) defenders) as [| p ps] eqn:E.
  - exists 99%R, nzero. repeat split; cbn; lra.
  - cbn [calculateTeamControlMetrics mbind option_bind].
    destruct (teamControl_durations (center lq) (center lq) (p :: ps))
      as ((t & -> & Ht) & Hts & _).
    do 2 eexists. split; [reflexivity |]. split; [exact Ht |].
    apply decay_sum; [lra | exact Hts].
Qed.

Lemma offensiveSide_range lq attackers :
  exists t a s, offensiveSide lq attackers None = Some (Fin t, a, s)
                /\ (0 <= t)%R /\ nonnegOrNaN a /\ withinOrNaN 0 1 s.
Proof.
  unfold offensiveSide.
  destruct (potentialReceivers lq attackers None) as [| p ps] eqn:E.
  - exists 99%R, nzero, nzero. repeat split; cbn; lra.
  - cbn [calculateTeamControlMetrics carrierArg mbind option_bind].
    destruct (teamControl_durations (center lq) (center lq) (p :: ps))
      as ((t & -> & Ht) & Hts & _).
    do 3 eexists. split; [reflexivity |]. split; [exact Ht |].
    pose proof (decay_sum 0.15 _ ltac:(lra) Hts) as Ha.
    split; [exact Ha |].
    apply ntanh_unit.
    destruct (nsum _) as [r | | |]; cbn in *; try contradiction;
      [lra | exact I].
Qed.

Lemma weighted_pair (a b : num) (wa wb : R) :
  (0 <= wa)%R -> (0 <= wb)%R ->
  withinOrNaN 0 1 a -> withinOrNaN 0 1 b ->
  withinOrNaN 0 (wa + wb) (a * lit wa + b * lit wb).
Proof.
  intros Hwa Hwb. destruct a, b; cbn; intros; try tauto. nra.
Qed.

Lemma complement_unit (a : num) :
  withinOrNaN 0 1 a -> withinOrNaN 0 1 (lit 1 - a).
Proof. destruct a; cbn; intros; try tauto. lra. Qed.

Lemma swarm_unit (a : num) :
  nonnegOrNaN a -> withinOrNaN 0 1 (lit 1 / (lit 1 + a * lit 5)).
Proof.
  destruct a as [r | | |]; cbn; intros H; try contradiction; [| exact I].
  rewrite Reqb_false by lra. cbn. split.
  - apply Rlt_le, Rdiv_lt_0_compat; lra.
  - apply (Rmult_le_reg_r (1 + r * 5)); [lra |].
    unfold Rdiv. rewrite Rmult_assoc, Rinv_l by lra. lra.
Qed.

(** X5: as [calculateLs] calls it, the exploitation calculator returns,
    for every quadrant and pair of teams, a final score in [0, 1], a
    defensive control in [0, 1] or [NaN], and a speed bonus in
    [1, 1.45]. *)
Theorem exploitation_score_range lq defenders attackers :
  exists ed,
    calculateExploitationScore lq defenders attackers None = Some ed
    /\ within 0 1 (exploit_finalScore ed)
    /\ withinOrNaN 0 1 (defensiveControl ed)
    /\ within 1 1.45 (speedBonus ed).
Proof.
  unfold calculateExploitationScore.
  destruct (defensiveSide_range lq defenders) as (t & a & -> & Ht & Ha).
  destruct (offensiveSide_range lq attackers)
    as (t' & a' & s & -> & Ht' & Ha' & Hs).
  cbn [mbind option_bind]. eexists; split; [reflexivity |].
  cbn [exploit_finalScore defensiveControl speedBonus].
  assert (withinOrNaN 0 1 (nexp (- lit 0.1 * Fin t))) as Hrec
    by (apply decay_term; [lra | exact Ht]).
  pose proof (complement_unit _ (swarm_unit a Ha)) as Hsw.
  assert (withinOrNaN 0 1
            (nexp (- lit 0.1 * Fin t) * lit 0.6
             + (lit 1 - lit 1 / (lit 1 + a * lit 5)) * lit 0.4)) as Hdc.
  { pose proof (weighted_pair _ _ 0.6 0.4 ltac:(lra) ltac:(lra) Hrec Hsw) as H.
    replace (0.6 + 0.4)%R with 1%R in H by lra. exact H. }
  assert (within 1 1.45
            (lit 1 + ntanh (nmax nzero (Fin t - Fin t') * lit 0.2) * lit 0.45))
    as Hsb.
  { cbn. unfold Rltb. destruct (Rlt_dec 0 (t + - t')); cbn.
    - pose proof (tanh_unit ((t + - t') * 0.2) ltac:(lra)). lra.
    - pose proof (tanh_unit (0 * 0.2) ltac:(lra)). lra. }
  split; [| split; [exact Hdc | exact Hsb]].
  apply capped_score'. apply nmul_duration.
  - apply nmul_duration.
    + apply (withinOrNaN_duration 0 (0.6 + 0.4)); [lra |].
      apply weighted_pair; try lra; [exact Hs | apply unit_logistic].
    + unfold powOne. apply (withinOrNaN_duration 0 1); [lra |].
      apply complement_unit, Hdc.
  - apply (within_duration 1 1.45); [lra | exact Hsb].
Qed.

(** X6: the feasibility score is a number of [0, 1] for every quadrant,
    carrier and defenders list; the obstruction factor is a number of
    [0, 1], the pressure and pass-distance factors are in [0, 1] or
    [NaN]. *)
Theorem feasibility_score_range lq carrier defenders :
  let f := calculateFeasibilityScore lq carrier defenders in
  within 0 1 (feasy_finalScore f)
  /\ within 0 1 (obstructionFactor f)
  /\ withinOrNaN 0 1 (pressureFactor f)
  /\ withinOrNaN 0 1 (passDistFactor f).
Proof.
  cbv zeta. unfold calculateFeasibilityScore.
  cbn [feasy_finalScore obstructionFactor pressureFactor passDistFactor].
  set (n := length _).
  assert (within 0 1 (nexp (- lit 0.3 * ofNat n))) as Hob.
  { cbn. pose proof (pos_INR n) as Hn.
    pose proof (exp_nonpos_unit (- (0.3) * INR n)) as He.
    assert (- (0.3) * INR n <= 0)%R by nra. lra. }
  match goal with
  | |- context [lit 1 / (lit 1 + nexp ?z)] =>
      pose proof (unit_logistic z) as Hpr
  end.
  assert (withinOrNaN 0 1
            (nexp (- lit 0.03 * distanceTo (position carrier) (center lq))))
    as Hpd by (apply decay_term; [lra | apply distanceTo_duration]).
  split; [| split; [exact Hob | split; [exact Hpr | exact Hpd]]].
  revert Hob Hpr Hpd.
  generalize (nexp (- lit 0.3 * ofNat n)).
  generalize (nexp (- lit 0.03 * distanceTo (position carrier) (center lq))).
  match goal with
  | |- context [lit 1 / (lit 1 + nexp ?z)] =>
      generalize (lit 1 / (lit 1 + nexp z))
  end.
  intros p d o. destruct o, p, d; cbn; intros; try tauto; lra.
Qed.

(** ** The geometry helpers *)

Lemma nlt_lower (d a q : num) :
  nlt d a = true -> nlt q a = false -> nlt q d = false.
Proof. num_cases; discriminate. Qed.

Lemma closest_invariant target (l seen : list Player) (st : option Player * num) :
  (match fst st with
   | None => snd st = PInf
   | Some p => In p seen /\ distanceTo (position p) target = snd st
   end) ->
  Forall (fun q => nlt (distanceTo (position q) target) (snd st) = false) seen ->
  let r := fold_left (closestStep target) l st in
  (match fst r with
   | None => snd r = PInf
   | Some p => In p (seen ++ l) /\ distanceTo (position p) target = snd r
   end)
  /\ Forall (fun q => nlt (distanceTo (position q) target) (snd r) = false)
       (seen ++ l).
Proof.
  revert seen st. induction l as [| x l IH]; intros seen st Hst Hall; cbn.
  - rewrite app_nil_r. split; assumption.
  - replace (seen ++ x :: l) with ((seen ++ [x]) ++ l)
      by (rewrite <- app_assoc; reflexivity).
    apply IH.
    + unfold closestStep.
      destruct (nlt (distanceTo (position x) target) (snd st)) eqn:E;
        cbn [fst snd].
      * split; [apply in_or_app; right; left; reflexivity | reflexivity].
      * destruct (fst st) as [p |]; [| exact Hst].
        destruct Hst as [Hin Hd]. split; [| exact Hd].
        apply in_or_app; left; exact Hin.
    + unfold closestStep.
      destruct (nlt (distanceTo (position x) target) (snd st)) eqn:E;
        cbn [fst snd]; apply Forall_app; split.
      * eapply Forall_impl; [| exact Hall]. cbn.
        intros q Hq. eapply nlt_lower; eassumption.
      * constructor; [| constructor].
        destruct (distanceTo (position x) target); cbn; try reflexivity.
        apply Rltb_false; lra.
      * exact Hall.
      * constructor; [exact E | constructor].
Qed.

(** X7: [findClosestPlayer] answers [(null, Infinity)] when no player is
    at a distance below [Infinity]; otherwise the player it returns is in
    the list, the distance returned is that player's, and no player of
    the list is strictly closer. *)
Theorem findClosestPlayer_spec target players :
  let r := findClosestPlayer target players in
  match fst r with
  | None => snd r = PInf
  | Some p => In p players /\ distanceTo (position p) target = snd r
  end
  /\ Forall (fun q => nlt (distanceTo (position q) target) (snd r) = false)
       players.
Proof.
  exact (closest_invariant target players [] (None, PInf) eq_refl
           (Forall_nil _)).
Qed.

(** X8: on a triangle with finite ground coordinates and [A > 0] the test
    answers [true] exactly when [s >= 0], [s + t <= A] and either
    [t >= 0] or [s = 0]: besides the points of the triangle it accepts
    every point of the line through [a] and [c] that lies beyond [a]. *)
Theorem positive_triangle_test px pz ax az bx bz cx cz (py ay by_ cy : num) :
  let p := mkV3 (Fin px) py (Fin pz) in
  let a := mkV3 (Fin ax) ay (Fin az) in
  let b := mkV3 (Fin bx) by_ (Fin bz) in
  let c := mkV3 (Fin cx) cy (Fin cz) in
  let s := (az * cx - ax * cz + (cz - az) * px + (ax - cx) * pz)%R in
  let t := (ax * bz - az * bx + (az - bz) * px + (bx - ax) * pz)%R in
  let A := (- bz * cx + az * (cx - bx) + ax * (bz - cz) + bx * cz)%R in
  (0 < A)%R ->
  isPointInTriangle (Some p) (Some a) (Some b) (Some c)
  = Rleb 0 s && Rleb (s + t) A && (Rleb 0 t || Reqb s 0).
Proof.
  intros p a b c s t A HA. unfold isPointInTriangle. subst p a b c.
  rewrite tri_s_ground, tri_t_ground, tri_A_ground. fold s t A.
  unfold nle, nge, nle, nzero. cbn [nlt neqb nadd].
  revert HA. generalize s t A; intros s' t' A' HA.
  r_cases; cbn; try reflexivity; exfalso; lra.
Qed.

(** The triangle (0,0), (1,0), (0,1) and the point (0,-5), five units
    outside it. *)
Lemma positive_triangle_test_witness :
  (0 < - 0 * 0 + 0 * (0 - 1) + 0 * (0 - 1) + 1 * 1)%R
  /\ isPointInTriangle (Some (mkV3 (Fin 0) nzero (Fin (-5))))
       (Some (mkV3 (Fin 0) nzero (Fin 0))) (Some (mkV3 (Fin 1) nzero (Fin 0)))
       (Some (mkV3 (Fin 0) nzero (Fin 1)))
     = Rleb 0 (0 * 0 - 0 * 1 + (1 - 0) * 0 + (0 - 0) * (-5))
       && Rleb (0 * 0 - 0 * 1 + (1 - 0) * 0 + (0 - 0) * (-5)
                + (0 * 0 - 0 * 1 + (0 - 0) * 0 + (1 - 0) * (-5)))
            (- 0 * 0 + 0 * (0 - 1) + 0 * (0 - 1) + 1 * 1)
       && (Rleb 0 (0 * 0 - 0 * 1 + (0 - 0) * 0 + (1 - 0) * (-5))
           || Reqb (0 * 0 - 0 * 1 + (1 - 0) * 0 + (0 - 0) * (-5)) 0).
Proof.
  assert (0 < - 0 * 0 + 0 * (0 - 1) + 0 * (0 - 1) + 1 * 1)%R as H by lra.
  split; [exact H |].
  exact (positive_triangle_test 0 (-5) 0 0 1 0 0 1 nzero nzero nzero nzero H).
Defined.

(** An instance: a point of the ground line through [a] and [c], outside the
    triangle on the side of [a], is reported inside: the test places
    (0, -5) in the triangle (0,0), (1,0), (0,1). *)
Theorem outside_point_reported_inside :
  isPointInTriangle (Some (mkV3 (Fin 0) nzero (Fin (-5))))
    (Some (mkV3 (Fin 0) nzero (Fin 0))) (Some (mkV3 (Fin 1) nzero (Fin 0)))
    (Some (mkV3 (Fin 0) nzero (Fin 1)))
  = true.
Proof.
  unfold isPointInTriangle.
  rewrite tri_s_ground, tri_t_ground, tri_A_ground.
  unfold nle, nge, nle, nzero. cbn [nlt neqb nadd].
  r_cases; cbn; try reflexivity; exfalso; lra.
Qed.


(** ** Quadrant areas *)



(** The shoelace sum of no corner at all is 0. *)
Lemma calculatePolygonArea_nil : calculatePolygonArea [] = Fin 0.
Proof.
  unfold calculatePolygonArea, lit, nzero. cbn.
  rewrite Reqb_false by lra. cbn [nabs].
  replace (0 / 2)%R with 0%R by lra. rewrite Rabs_R0. reflexivity.
Qed.

(** ** The passing cone *)

Lemma nsqrt_nonneg (r : R) : (0 <= r)%R -> nsqrt (Fin r) = Fin (sqrt r).
Proof. intros H. cbn. rewrite Rltb_false by lra. reflexivity. Qed.

Lemma clamp_finite (q : R) :
  exists r, clamp (Fin q) (Fin (-1)) (Fin 1) = Fin r /\ (-1 <= r <= 1)%R.
Proof.
  unfold clamp. cbn. r_cases; cbn; r_cases; eexists;
    (split; [reflexivity | lra]).
Qed.

Lemma nacos_unit (r : R) : (-1 <= r <= 1)%R -> nacos (Fin r) = Fin (acos r).
Proof.
  intros H. cbn. rewrite !Rltb_false by lra. reflexivity.
Qed.

Lemma angleTo_finite a b :
  finiteV a -> finiteV b ->
  exists th, angleTo a b = Fin th /\ (0 <= th <= PI)%R.
Proof.
  intros (ax & ay & az & ->) (bx & by_ & bz & ->).
  unfold angleTo.
  set (den := ((ax * ax + ay * ay + az * az)
               * (bx * bx + by_ * by_ + bz * bz))%R).
  change (lengthSq _ * lengthSq _) with (Fin den).
  change (dot _ _) with (Fin (ax * bx + ay * by_ + az * bz)).
  rewrite nsqrt_nonneg by (unfold den; nra).
  cbn [neqb nzero].
  unfold Reqb at 1. destruct (Req_dec_T (sqrt den) 0) as [Hz | Hnz].
  - exists (PI / 2)%R. split; [reflexivity |]. pose proof PI_RGT_0. lra.
  - cbn [ndiv]. rewrite Reqb_false by exact Hnz.
    destruct (clamp_finite ((ax * bx + ay * by_ + az * bz) / sqrt den))
      as (r & -> & Hr).
    rewrite nacos_unit by exact Hr.
    eexists; split; [reflexivity | apply acos_bound].
Qed.

Lemma subVectors_finite a b : finiteV a -> finiteV b -> finiteV (subVectors a b).
Proof.
  intros (ax & ay & az & ->) (bx & by_ & bz & ->).
  unfold subVectors; cbn. do 3 eexists; reflexivity.
Qed.

Lemma cornerPairs_In (l : list Vector3) (a b : Vector3) :
  In (a, b) (cornerPairs l) -> In a l /\ In b l.
Proof.
  induction l as [| c rest IH]; cbn; [tauto |].
  intros H. apply in_app_or in H. destruct H as [H | H].
  - apply in_map_iff in H. destruct H as (y & [= <- <-] & Hy). tauto.
  - destruct (IH H); tauto.
Qed.

Lemma ngt_upper (x a q : num) :
  ngt x a = true -> ngt q a = false -> ngt q x = false.
Proof. unfold ngt. num_cases; discriminate. Qed.

Lemma ngt_irrefl (x : num) : ngt x x = false.
Proof. unfold ngt. num_cases. Qed.

Lemma cone_invariant startPoint (l seen : list (Vector3 * Vector3))
    (st : num * option (Vector3 * Vector3)) :
  (match snd st with
   | None => fst st = Fin (-1)
   | Some c => In c seen /\ coneAngle startPoint c = fst st
   end) ->
  Forall (fun c => ngt (coneAngle startPoint c) (fst st) = false) seen ->
  let r := fold_left (coneStep startPoint) l st in
  (match snd r with
   | None => fst r = Fin (-1)
   | Some c => In c (seen ++ l) /\ coneAngle startPoint c = fst r
   end)
  /\ Forall (fun c => ngt (coneAngle startPoint c) (fst r) = false) (seen ++ l).
Proof.
  revert seen st. induction l as [| x l IH]; intros seen st Hst Hall; cbn.
  - rewrite app_nil_r. split; assumption.
  - replace (seen ++ x :: l) with ((seen ++ [x]) ++ l)
      by (rewrite <- app_assoc; reflexivity).
    apply IH; unfold coneStep; fold (coneAngle startPoint x);
      destruct (ngt (coneAngle startPoint x) (fst st)) eqn:E; cbn [fst snd].
    + split; [apply in_or_app; right; left; reflexivity | reflexivity].
    + destruct (snd st) as [c |]; [| exact Hst].
      destruct Hst as [Hin Hd]. split; [| exact Hd].
      apply in_or_app; left; exact Hin.
    + apply Forall_app; split.
      * eapply Forall_impl; [| exact Hall]. cbn.
        intros q Hq. eapply ngt_upper; eassumption.
      * constructor; [apply ngt_irrefl | constructor].
    + apply Forall_app; split; [exact Hall |].
      constructor; [exact E | constructor].
Qed.

(** X11: the passing cone is the start point alone, or the start point
    followed by two corners of the quadrilateral in ascending [z]; in the
    second case the two corners are a pair of the scan and no pair of the
    quadrilateral is seen under a strictly larger angle. *)
Theorem getPassingCone_spec startPoint quadCorners :
  getPassingCone startPoint quadCorners = [startPoint]
  \/ exists a b c,
       getPassingCone startPoint quadCorners = [startPoint; a; b]
       /\ In a quadCorners /\ In b quadCorners
       /\ ngt (vz a - vz b) nzero = false
       /\ In c (cornerPairs quadCorners)
       /\ (c = (a, b) \/ c = (b, a))
       /\ Forall (fun c' => ngt (coneAngle startPoint c')
                              (coneAngle startPoint c) = false)
            (cornerPairs quadCorners).
Proof.
  unfold getPassingCone.
  destruct (cone_invariant startPoint (cornerPairs quadCorners) []
              (Fin (-1), None) eq_refl (Forall_nil _)) as [Hsel Hmax].
  cbn [app] in Hsel, Hmax.
  destruct (fold_left _ _ _) as [ang [[a b] |]]; cbn [fst snd] in *;
    [| left; reflexivity].
  right. destruct Hsel as [Hin Hang]. subst ang.
  destruct (cornerPairs_In _ _ _ Hin) as [Ha Hb].
  unfold sortCorners.
  destruct (ngt (vz a - vz b) nzero) eqn:E.
  - exists b, a, (a, b). repeat split; try assumption; try tauto.
    revert E. unfold ngt. generalize (vz a) (vz b). intros x y.
    num_cases; discriminate.
  - exists a, b, (a, b). repeat split; try assumption; tauto.
Qed.

Lemma cornerPairs_head (a b : Vector3) (l : list Vector3) :
  cornerPairs (a :: b :: l)
  = (a, b) :: (map (pair a) l ++ cornerPairs (b :: l)).
Proof. reflexivity. Qed.

Lemma coneStep_keeps startPoint l st :
  snd st <> None -> snd (fold_left (coneStep startPoint) l st) <> None.
Proof.
  revert st. induction l as [| x l IH]; intros st H; cbn; [exact H |].
  apply IH. unfold coneStep. destruct (ngt _ _); cbn; [discriminate | exact H].
Qed.

(** X12: from a finite start point, a quadrilateral with at least two
    corners, all finite, always yields a triangle: the start point and
    two corners. *)
Theorem getPassingCone_triangle startPoint quadCorners :
  finiteV startPoint -> Forall finiteV quadCorners ->
  (2 <= length quadCorners)%nat ->
  length (getPassingCone startPoint quadCorners) = 3%nat.
Proof.
  intros Hs Hq Hlen.
  destruct quadCorners as [| a [| b l]]; cbn in Hlen; try lia.
  unfold getPassingCone.
  rewrite cornerPairs_head. set (rest := map (pair a) l ++ _).
  cbn [fold_left].
  assert (snd (coneStep startPoint (Fin (-1), None) (a, b)) <> None) as H1.
  { unfold coneStep. cbn [fst snd].
    inversion_clear Hq as [| ? ? Ha Hq']. inversion_clear Hq' as [| ? ? Hb _].
    destruct (angleTo_finite _ _ (subVectors_finite _ _ Ha Hs)
                (subVectors_finite _ _ Hb Hs)) as (th & -> & Hth).
    unfold ngt. cbn. rewrite Rltb_true by lra. discriminate. }
  pose proof (coneStep_keeps startPoint rest _ H1) as H2.
  destruct (snd (fold_left _ _ _)) as [[x y] |]; [| contradiction].
  unfold sortCorners. destruct (ngt (vz x - vz y) nzero); reflexivity.
Qed.

Lemma getPassingCone_triangle_witness :
  let quad := [mkV3 (Fin 1) (Fin 0) (Fin 0); mkV3 (Fin 0) (Fin 0) (Fin 1)] in
  finiteV origin /\ Forall finiteV quad /\ (2 <= length quad)%nat
  /\ length (getPassingCone origin quad) = 3%nat.
Proof.
  intros quad.
  assert (finiteV origin) as Ho by (exists 0%R, 0%R, 0%R; reflexivity).
  assert (Forall finiteV quad) as Hq
    by (repeat constructor; do 3 eexists; reflexivity).
  assert (2 <= length quad)%nat as Hl by (simpl; lia).
  repeat split; try assumption.
  exact (getPassingCone_triangle origin quad Ho Hq Hl).
Defined.

(** ** Sorting and the defensive line *)

Section SortFacts.
Context {A : Type} (cmp : A -> A -> num).

Lemma insertSorted_perm (x : A) (l : list A) :
  Permutation (insertSorted cmp x l) (x :: l).
Proof.
  induction l as [| y l IH]; cbn; [apply Permutation_refl |].
  destruct (nlt (cmp x y) nzero); [apply Permutation_refl |].
  eapply perm_trans; [apply perm_skip, IH | apply perm_swap].
Qed.

Lemma sortBy_perm (l : list A) : Permutation (sortBy cmp l) l.
Proof.
  unfold sortBy.
  assert (forall acc, Permutation (fold_left (fun acc x => insertSorted cmp x acc) l acc)
                        (acc ++ l)) as H.
  { induction l as [| x l IH]; intros acc; cbn.
    - rewrite app_nil_r. apply Permutation_refl.
    - eapply perm_trans; [apply IH |].
      eapply perm_trans;
        [apply Permutation_app_tail, insertSorted_perm |].
      cbn. apply Permutation_middle. }
  exact (H []).
Qed.

(** Comparators that subtract a finite key. *)
Context (P : A -> Prop) (key : A -> R).
Hypothesis cmp_key :
  forall x y, P x -> P y -> nlt (cmp x y) nzero = Rltb (key x) (key y).

Local Abbreviation keyLe := (fun x y : A => (key x <= key y)%R).

Lemma insertSorted_sorted (x : A) (l : list A) :
  P x -> Forall P l -> StronglySorted keyLe l ->
  StronglySorted keyLe (insertSorted cmp x l).
Proof.
  intros Px Pl Hs. induction Hs as [| y l Hs IH Hy]; cbn.
  - repeat constructor.
  - inversion_clear Pl as [| ? ? Py Pl'].
    rewrite (cmp_key x y Px Py). unfold Rltb.
    destruct (Rlt_dec (key x) (key y)) as [Hlt | Hge].
    + constructor; [constructor; assumption |].
      constructor; [cbn; lra |].
      eapply Forall_impl; [| exact Hy]. cbn; intros; lra.
    + constructor; [apply IH, Pl' |].
      eapply Permutation_Forall;
        [apply Permutation_sym, insertSorted_perm |].
      constructor; [cbn; lra | exact Hy].
Qed.

Lemma sortBy_sorted (l : list A) :
  Forall P l -> StronglySorted keyLe (sortBy cmp l).
Proof.
  unfold sortBy.
  assert (forall acc, Forall P acc -> StronglySorted keyLe acc ->
                      Forall P l ->
                      StronglySorted keyLe
                        (fold_left (fun acc x => insertSorted cmp x acc) l acc))
    as H.
  { induction l as [| x l IH]; intros acc Pacc Hacc Pl; cbn; [exact Hacc |].
    inversion_clear Pl as [| ? ? Px Pl'].
    apply IH; [| apply insertSorted_sorted; assumption | exact Pl'].
    eapply Permutation_Forall;
      [apply Permutation_sym, insertSorted_perm |].
    constructor; assumption. }
  intros Pl. apply H; [constructor | constructor | exact Pl].
Qed.
End SortFacts.

Lemma sorted_split {A : Type} (R : A -> A -> Prop) (l1 l2 : list A) :
  StronglySorted R (l1 ++ l2) -> Forall (fun p => Forall (R p) l2) l1.
Proof.
  induction l1 as [| a l1 IH]; cbn; intros H; [constructor |].
  inversion_clear H as [| ? ? Hs Ha]. constructor; [| apply IH, Hs].
  apply Forall_app in Ha. apply Ha.
Qed.

(** X13: the line players are the first four of a reordering of the
    defenders: there are [min(4, n)] of them, and together with the
    players left out they make up the defenders list. *)
Theorem line_players_selection defenders attackingDirection :
  let m := getDefensiveLineMetrics defenders attackingDirection in
  length (line_players m) = Nat.min 4 (length defenders)
  /\ exists rest, Permutation defenders (line_players m ++ rest).
Proof.
  cbv zeta. unfold getDefensiveLineMetrics.
  destruct defenders as [| d ds]; [split; [reflexivity | exists []; constructor] |].
  set (l := d :: ds).
  pose proof (sortBy_perm (byDepth attackingDirection) l) as Hp.
  set (sorted := sortBy (byDepth attackingDirection) l) in *.
  assert (line_players
            match firstn 4 sorted with
            | [] => mkLine nzero []
            | _ :: _ =>
                mkLine
                  (fold_left (fun sum p => sum + vx (position p))
                     (firstn 4 sorted) nzero
                   / ofNat (length (firstn 4 sorted)))
                  (firstn 4 sorted)
            end = firstn 4 sorted) as ->
    by (destruct (firstn 4 sorted); reflexivity).
  split.
  - rewrite length_firstn, (Permutation_length Hp). reflexivity.
  - exists (skipn 4 sorted). rewrite firstn_skipn.
    apply Permutation_sym, Hp.
Qed.

Lemma distToGoalLine_finite d p x :
  vx (position p) = Fin x ->
  distToGoalLine (Fin d) p = Fin (Rabs (x + - (d * 52.5))).
Proof. intros H. unfold distToGoalLine. rewrite H. reflexivity. Qed.

(** X14: for a finite direction and finite x-coordinates, the line players
    are the defenders nearest to the line x = 52.5 * attackingDirection:
    no defender left out of the line is strictly nearer to it than a line
    player. *)
Theorem line_players_are_nearest defenders d :
  Forall (fun p => exists x, vx (position p) = Fin x) defenders ->
  let m := getDefensiveLineMetrics defenders (Fin d) in
  exists rest,
    Permutation defenders (line_players m ++ rest)
    /\ Forall
         (fun p =>
            Forall
              (fun q =>
                 nlt (distToGoalLine (Fin d) q) (distToGoalLine (Fin d) p)
                 = false)
              rest)
         (line_players m).
Proof.
  intros Hfin. cbv zeta. unfold getDefensiveLineMetrics.
  destruct defenders as [| d0 ds]; [exists []; split; constructor |].
  set (l := d0 :: ds) in *.
  set (P := fun p : Player => exists x, vx (position p) = Fin x) in *.
  set (key := fun p : Player =>
                match vx (position p) with
                | Fin x => Rabs (x + - (d * 52.5))
                | _ => 0%R
                end).
  assert (forall p, P p -> distToGoalLine (Fin d) p = Fin (key p)) as Hkey.
  { intros p [x Hx]. unfold key. rewrite Hx.
    apply distToGoalLine_finite, Hx. }
  assert (forall x y, P x -> P y ->
                      nlt (byDepth (Fin d) x y) nzero = Rltb (key x) (key y))
    as Hcmp.
  { intros x y Px Py. unfold byDepth. rewrite (Hkey x Px), (Hkey y Py).
    cbn. r_cases; try reflexivity; exfalso; lra. }
  pose proof (sortBy_perm (byDepth (Fin d)) l) as Hp.
  pose proof (sortBy_sorted (byDepth (Fin d)) P key Hcmp l Hfin) as Hs.
  assert (Forall P (sortBy (byDepth (Fin d)) l)) as HP
    by (eapply Permutation_Forall; [apply Permutation_sym, Hp | exact Hfin]).
  set (sorted := sortBy (byDepth (Fin d)) l) in *.
  assert (line_players
            match firstn 4 sorted with
            | [] => mkLine nzero []
            | _ :: _ =>
                mkLine
                  (fold_left (fun sum p => sum + vx (position p))
                     (firstn 4 sorted) nzero
                   / ofNat (length (firstn 4 sorted)))
                  (firstn 4 sorted)
            end = firstn 4 sorted) as ->
    by (destruct (firstn 4 sorted); reflexivity).
  exists (skipn 4 sorted). rewrite firstn_skipn.
  split; [apply Permutation_sym, Hp |].
  rewrite <- (firstn_skipn 4 sorted) in Hs, HP.
  apply Forall_app in HP. destruct HP as [HP1 HP2].
  pose proof (sorted_split _ _ _ Hs) as Hsplit.
  rewrite Forall_forall in Hsplit, HP1, HP2 |- *.
  intros p Hp1. rewrite Forall_forall. intros q Hq.
  specialize (Hsplit p Hp1). rewrite Forall_forall in Hsplit.
  specialize (Hsplit q Hq). cbn in Hsplit.
  rewrite (Hkey p (HP1 p Hp1)), (Hkey q (HP2 q Hq)).
  cbn. apply Rltb_false, Hsplit.
Qed.

Lemma line_players_are_nearest_witness :
  Forall (fun p => exists x, vx (position p) = Fin x) awaySquad
  /\ exists rest,
       Permutation awaySquad
         (line_players (getDefensiveLineMetrics awaySquad (Fin 1)) ++ rest)
       /\ Forall
            (fun p =>
               Forall
                 (fun q =>
                    nlt (distToGoalLine (Fin 1) q) (distToGoalLine (Fin 1) p)
                    = false)
                 rest)
            (line_players (getDefensiveLineMetrics awaySquad (Fin 1))).
Proof.
  assert (Forall (fun p => exists x, vx (position p) = Fin x) awaySquad) as H
    by (repeat constructor; eexists; reflexivity).
  split; [exact H |].
  exact (line_players_are_nearest awaySquad 1 H).
Defined.

(** ** Centroid and shape of a team *)

Lemma spread_step (mx mn x : num) :
  durationLike (mx - mn) -> durationLike (nmax mx x - nmin mn x).
Proof.
  destruct mx, mn, x; cbn; intros H; try exact I; try contradiction;
    r_cases; cbn; try exact I; try lra.
Qed.

Lemma spread_fold (l : list num) (mx mn : num) :
  durationLike (mx - mn) ->
  durationLike (fold_left nmax l mx - fold_left nmin l mn).
Proof.
  revert mx mn. induction l as [| x l IH]; intros mx mn H; cbn; [exact H |].
  apply IH, spread_step, H.
Qed.

Lemma spread_duration (a : num) (l : list num) :
  durationLike (nmax_list (a :: l) - nmin_list (a :: l)).
Proof.
  unfold nmax_list, nmin_list. cbn [fold_left].
  apply spread_fold. destruct a; cbn; try exact I. lra.
Qed.

(** X15: the width and the depth of a team are never negative (they are
    non-negative, [Infinity] or [NaN]), and both are 0 for a team of fewer
    than two players. *)
Theorem team_shape_nonnegative players :
  durationLike (width (getTeamShape players))
  /\ durationLike (depth (getTeamShape players))
  /\ getTeamShape [] = mkShape nzero nzero
  /\ forall p, getTeamShape [p] = mkShape nzero nzero.
Proof.
  assert (durationLike nzero) as H0 by (cbn; lra).
  unfold getTeamShape.
  destruct players as [| p [| q l]]; cbn [length Nat.ltb Nat.leb width depth];
    repeat split; try exact H0; cbn [map]; apply spread_duration.
Qed.

Lemma centroid_sum_perm (l l' : list Player) (acc : num * num) :
  Permutation l l' ->
  fold_left (fun acc p => (fst acc + vx (position p), snd acc + vz (position p)))
    l acc
  = fold_left (fun acc p => (fst acc + vx (position p), snd acc + vz (position p)))
      l' acc.
Proof.
  intros H. apply fold_left_perm; [| exact H].
  intros s x y. cbn [fst snd]. f_equal; apply nadd_swap.
Qed.

(** X16: the centroid and the shape of a team do not depend on the order
    in which its players are listed. *)
Theorem team_features_order_independent players players' :
  Permutation players players' ->
  getTeamCentroid players = getTeamCentroid players'
  /\ getTeamShape players = getTeamShape players'.
Proof.
  intros H. split.
  - unfold getTeamCentroid.
    pose proof (perm_nil_cons _ _ H) as Hnil.
    destruct players as [| a k] eqn:E, players' as [| a' k'] eqn:E';
      try (exfalso; destruct Hnil as [H1 H2];
           first [discriminate (H1 eq_refl) | discriminate (H2 eq_refl)]).
    + reflexivity.
    + rewrite (centroid_sum_perm _ _ (nzero, nzero) H),
        (Permutation_length H). reflexivity.
  - unfold getTeamShape. rewrite (Permutation_length H).
    destruct (_ <? _)%nat; [reflexivity |].
    rewrite (nmax_list_perm _ _ (Permutation_map (fun p => vz (position p)) H)),
      (nmin_list_perm _ _ (Permutation_map (fun p => vz (position p)) H)),
      (nmax_list_perm _ _ (Permutation_map (fun p => vx (position p)) H)),
      (nmin_list_perm _ _ (Permutation_map (fun p => vx (position p)) H)).
    reflexivity.
Qed.

Lemma team_features_order_independent_witness :
  let a := standing 1 "Away" "CB" 25 0 in
  let b := standing 2 "Away" "GK" 50 3 in
  Permutation [a; b] [b; a]
  /\ getTeamCentroid [a; b] = getTeamCentroid [b; a]
  /\ getTeamShape [a; b] = getTeamShape [b; a].
Proof.
  intros a b. split; [apply perm_swap |].
  exact (team_features_order_independent [a; b] [b; a] (perm_swap b a [])).
Defined.

(** ** More on the playback buffer *)

Module PlaybackLaws.
Import Playback.
Local Open Scope Q_scope.

Lemma findIndex_Some {A : Type} (f : A -> bool) (l : list A) (k : nat) :
  findIndex f l = Some k ->
  exists a, nth_error l k = Some a /\ f a = true
            /\ Forall (fun b => f b = false) (firstn k l).
Proof.
  revert k. induction l as [| x l IH]; intros k; cbn; [discriminate |].
  destruct (f x) eqn:E.
  - intros [= <-]. exists x. repeat split; [exact E | constructor].
  - destruct (findIndex f l) as [j |]; cbn; [| discriminate].
    intros [= <-]. destruct (IH j eq_refl) as (a & Ha & Hf & Hall).
    exists a. cbn. repeat split; try assumption. constructor; assumption.
Qed.

Lemma findIndex_None {A : Type} (f : A -> bool) (l : list A) :
  findIndex f l = None -> Forall (fun b => f b = false) l.
Proof.
  induction l as [| x l IH]; cbn; [constructor |].
  destruct (f x) eqn:E; [discriminate |].
  destruct (findIndex f l); cbn; [discriminate |].
  intros _. constructor; [exact E | apply IH; reflexivity].
Qed.

Lemma Qle_bool_false (a b : Q) : Qle_bool a b = false -> b < a.
Proof.
  intros H. apply Qnot_le_lt. intros Hle.
  apply Qle_bool_iff in Hle. congruence.
Qed.

Lemma Qltb_true (a b : Q) : Qltb a b = true <-> a < b.
Proof.
  unfold Qltb. split.
  - intros H. apply Qle_bool_false. destruct (Qle_bool b a); [discriminate | reflexivity].
  - intros H. destruct (Qle_bool b a) eqn:E; [| reflexivity].
    apply Qle_bool_iff in E. exfalso. apply (Qlt_not_le _ _ H E).
Qed.

Lemma findFrames_shape (frames : PlaybackBuffer) (clock : Q)
    (p n : Frame) :
  findFramesForInterpolation frames clock = Some (p, n) ->
  (exists before after,
      frames = before ++ p :: n :: after
      /\ videoTime p < clock /\ clock <= videoTime n
      /\ Forall (fun f => videoTime f < clock) before)
  \/ (p = n /\ first frames = Some p /\ clock <= videoTime p)
  \/ (p = n /\ last frames = Some p
      /\ Forall (fun f => videoTime f < clock) frames).
Proof.
  unfold findFramesForInterpolation.
  destruct (length frames <? 2)%nat; [discriminate |].
  destruct (findIndex _ frames) as [[| k] |] eqn:E.
  - destruct (findIndex_Some _ _ _ E) as (a & Ha & Hf & _).
    unfold first. rewrite Ha. cbn [mbind option_bind]. intros [= <- <-].
    right; left. split; [reflexivity |]. split; [reflexivity |].
    apply Qle_bool_iff, Hf.
  - destruct (findIndex_Some _ _ _ E) as (a & Ha & Hf & Hall).
    rewrite Ha.
    destruct (nth_error frames k) as [b |] eqn:Eb; cbn [mbind option_bind];
      [| discriminate].
    intros [= <- <-]. left.
    destruct (nth_error_split _ _ Eb) as (l1 & l2 & -> & Hlen).
    destruct l2 as [| c l2].
    { exfalso. rewrite nth_error_app2 in Ha by lia.
      replace (S k - length l1)%nat with 1%nat in Ha by lia.
      discriminate. }
    rewrite nth_error_app2 in Ha by lia.
    replace (S k - length l1)%nat with 1%nat in Ha by lia.
    cbn in Ha. injection Ha as ->.
    exists l1, l2. split; [reflexivity |].
    assert (firstn (S k) (l1 ++ b :: a :: l2) = l1 ++ [b]) as Hfirst.
    { replace (S k) with (length l1 + 1)%nat by lia.
      rewrite firstn_app_2. reflexivity. }
    rewrite Hfirst in Hall. apply Forall_app in Hall.
    destruct Hall as [H1 H2]. inversion_clear H2 as [| ? ? Hb _].
    split; [apply Qle_bool_false, Hb |].
    split; [apply Qle_bool_iff, Hf |].
    eapply Forall_impl; [| exact H1]. intros f; apply Qle_bool_false.
  - pose proof (findIndex_None _ _ E) as Hall.
    destruct (last frames) as [l |] eqn:El; cbn [mbind option_bind];
      [| discriminate].
    intros [= <- <-]. right; right.
    split; [reflexivity |]. split; [reflexivity |].
    eapply Forall_impl; [| exact Hall]. intros f; apply Qle_bool_false.
Qed.

(** X17: the pair returned for a playback time brackets it.  Either the
    two frames are consecutive, the first strictly before the clock and
    the second at or after it, with every earlier frame strictly before
    the clock; or the clock is at or before the first frame and the pair
    is that frame twice; or every frame is strictly before the clock and
    the pair is the last frame twice. *)
Theorem findFrames_brackets (frames : PlaybackBuffer) (clock : Q)
    (p n : Frame) :
  findFramesForInterpolation frames clock = Some (p, n) ->
  (exists before after,
      frames = before ++ p :: n :: after
      /\ videoTime p < clock /\ clock <= videoTime n
      /\ Forall (fun f => videoTime f < clock) before)
  \/ (p = n /\ first frames = Some p /\ clock <= videoTime p)
  \/ (p = n /\ last frames = Some p
      /\ Forall (fun f => videoTime f < clock) frames).
Proof. apply findFrames_shape. Qed.

Lemma findFrames_brackets_witness :
  let f0 := mkFrame [] 0 in
  let f1 := mkFrame [] 100 in
  let f2 := mkFrame [] 200 in
  findFramesForInterpolation [f0; f1; f2] 150 = Some (f1, f2)
  /\ ((exists before after,
          [f0; f1; f2] = before ++ f1 :: f2 :: after
          /\ videoTime f1 < 150 /\ 150 <= videoTime f2
          /\ Forall (fun f => videoTime f < 150) before)
      \/ (f1 = f2 /\ first [f0; f1; f2] = Some f1 /\ 150 <= videoTime f1)
      \/ (f1 = f2 /\ last [f0; f1; f2] = Some f1
          /\ Forall (fun f => videoTime f < 150) [f0; f1; f2])).
Proof.
  intros f0 f1 f2.
  assert (findFramesForInterpolation [f0; f1; f2] 150 = Some (f1, f2)) as H
    by reflexivity.
  split; [exact H |].
  exact (findFrames_brackets [f0; f1; f2] 150 f1 f2 H).
Defined.

(** X18: a buffer of at least two frames never answers [null]: the pair it
    returns is made of two of its frames. *)
Theorem findFrames_some (frames : PlaybackBuffer) (clock : Q) :
  (2 <= length frames)%nat ->
  exists p n, findFramesForInterpolation frames clock = Some (p, n)
              /\ In p frames /\ In n frames.
Proof.
  intros Hlen. unfold findFramesForInterpolation.
  destruct (Nat.ltb_spec (length frames) 2) as [Hlt | _]; [lia |].
  assert (exists l, last frames = Some l /\ In l frames) as (l & Hl & Hlin).
  { unfold last. destruct (nth_error frames (length frames - 1)) as [l |] eqn:E.
    - exists l; split; [reflexivity | eapply nth_error_In, E].
    - apply nth_error_None in E. lia. }
  destruct (findIndex _ frames) as [[| k] |] eqn:E.
  - destruct (findIndex_Some _ _ _ E) as (a & Ha & _).
    unfold first. rewrite Ha. cbn [mbind option_bind].
    exists a, a. pose proof (nth_error_In _ _ Ha). tauto.
  - destruct (findIndex_Some _ _ _ E) as (a & Ha & _).
    rewrite Ha.
    destruct (nth_error frames k) as [b |] eqn:Eb.
    + cbn [mbind option_bind]. exists b, a.
      pose proof (nth_error_In _ _ Ha). pose proof (nth_error_In _ _ Eb).
      tauto.
    + apply nth_error_None in Eb.
      assert (S k < length frames)%nat
        by (apply nth_error_Some; rewrite Ha; discriminate).
      lia.
  - rewrite Hl. cbn [mbind option_bind]. exists l, l. tauto.
Qed.

Lemma findFrames_some_witness :
  let frames := [mkFrame [] 0; mkFrame [] 100] in
  (2 <= length frames)%nat
  /\ exists p n, findFramesForInterpolation frames 50 = Some (p, n)
                 /\ In p frames /\ In n frames.
Proof.
  intros frames.
  assert (2 <= length frames)%nat as H by (simpl; lia).
  split; [exact H |]. exact (findFrames_some frames 50 H).
Defined.

(** X19: the interpolation factor computed for the pair returned at a
    playback time lies in [0, 1]. *)
Theorem interpAlpha_unit (frames : PlaybackBuffer) (clock : Q) (p n : Frame) :
  findFramesForInterpolation frames clock = Some (p, n) ->
  0 <= interpAlpha p n clock /\ interpAlpha p n clock <= 1.
Proof.
  intros H. unfold interpAlpha.
  destruct (Qltb 0 (videoTime n - videoTime p)) eqn:Ed;
    [| split; [apply Qle_refl | discriminate]].
  apply Qltb_true in Ed.
  destruct (findFrames_shape _ _ _ _ H)
    as [(before & after & _ & Hp & Hn & _) | [(-> & _) | (-> & _)]].
  - split.
    + apply Qle_shift_div_l; [exact Ed |]. rewrite Qmult_0_l.
      apply Qlt_le_weak. unfold Qminus. rewrite <- Qlt_minus_iff. exact Hp.
    + apply Qle_shift_div_r; [exact Ed |]. rewrite Qmult_1_l.
      unfold Qminus. apply Qplus_le_l. exact Hn.
  - exfalso. unfold Qminus in Ed. rewrite Qplus_opp_r in Ed.
    apply (Qlt_irrefl 0 Ed).
  - exfalso. unfold Qminus in Ed. rewrite Qplus_opp_r in Ed.
    apply (Qlt_irrefl 0 Ed).
Qed.

Lemma interpAlpha_unit_witness :
  let f0 := mkFrame [] 0 in
  let f1 := mkFrame [] 100 in
  let f2 := mkFrame [] 300 in
  findFramesForInterpolation [f0; f1; f2] 150 = Some (f1, f2)
  /\ 0 <= interpAlpha f1 f2 150 /\ interpAlpha f1 f2 150 <= 1.
Proof.
  intros f0 f1 f2.
  assert (findFramesForInterpolation [f0; f1; f2] 150 = Some (f1, f2)) as H
    by reflexivity.
  split; [exact H |].
  exact (interpAlpha_unit [f0; f1; f2] 150 f1 f2 H).
Defined.

(** The factor [tick] passes to [updateWithInterpolation] is
    [interpAlpha]. *)
Lemma tick_uses_interpAlpha (buffer : PlaybackBuffer) (m : PlayerManager)
    (clock : Q) :
  tick buffer m clock
  = let span := timeSpan buffer in
    let clock' := if Qle_bool (snd span) clock then snd span else clock in
    match findFramesForInterpolation buffer clock' with
    | Some (prev, next) =>
        updateWithInterpolation m (Some prev) (Some next)
          (interpAlpha prev next clock') buffer
    | None => m
    end.
Proof. reflexivity. Qed.

Lemma scanAppearance_Some (playerId : string) (limit : Q) (fs : list Frame)
    (s : Sample) (t : Q) :
  scanAppearance playerId limit fs = Some (s, t) ->
  exists mid f rest,
    fs = mid ++ f :: rest
    /\ Forall (fun g => find (fun p => String.eqb (id p) playerId) (players g)
                        = None
                        /\ videoTime g <= limit) mid
    /\ find (fun p => String.eqb (id p) playerId) (players f) = Some s
    /\ videoTime f = t /\ t <= limit.
Proof.
  induction fs as [| g fs IH]; cbn; [discriminate |].
  destruct (Qltb limit (videoTime g)) eqn:El; [discriminate |].
  assert (videoTime g <= limit) as Hg.
  { unfold Qltb in El. apply Qle_bool_iff.
    destruct (Qle_bool (videoTime g) limit); [reflexivity | discriminate]. }
  destruct (find _ (players g)) as [q |] eqn:Ef.
  - intros [= <- <-]. exists [], g, fs.
    split; [reflexivity |]. split; [constructor |].
    split; [exact Ef |]. split; [reflexivity | exact Hg].
  - intros H. destruct (IH H) as (mid & f & rest & -> & Hmid & Hf & Ht & Hl).
    exists (g :: mid), f, rest.
    split; [reflexivity |]. split; [constructor; [split |]; assumption |].
    split; [exact Hf |]. split; assumption.
Qed.

(** X20: when [findNextAppearance] finds a player, the buffer splits into
    the leading frames stamped at or before [afterTime] and the frames
    from the first one stamped after [afterTime] on; among the latter, the
    frame of the answer is the first one that shows the id, every frame
    before it is stamped at most 600000 ms after [afterTime], and so is
    the frame itself; the sample returned is the first one carrying the id
    in that frame and the time returned is the frame's timestamp. *)
Theorem findNextAppearance_sound (frames : PlaybackBuffer) (playerId : string)
    (afterTime : Q) (s : Sample) (t : Q) :
  findNextAppearance frames playerId afterTime = Some (s, t) ->
  exists before start tail mid f rest,
    frames = before ++ start :: tail
    /\ Forall (fun g => videoTime g <= afterTime) before
    /\ afterTime < videoTime start
    /\ start :: tail = mid ++ f :: rest
    /\ Forall (fun g => find (fun p => String.eqb (id p) playerId) (players g)
                        = None
                        /\ videoTime g <= afterTime + 600000) mid
    /\ find (fun p => String.eqb (id p) playerId) (players f) = Some s
    /\ id s = playerId
    /\ videoTime f = t /\ t <= afterTime + 600000.
Proof.
  unfold findNextAppearance.
  destruct (findIndex _ frames) as [k |] eqn:E; [| discriminate].
  destruct (findIndex_Some _ _ _ E) as (a & Ha & Hafter & Hbefore).
  destruct (nth_error_split _ _ Ha) as (l1 & l2 & Hframes & Hlen).
  assert (firstn k frames = l1) as Hfirst.
  { rewrite Hframes, <- Hlen. rewrite firstn_app, Nat.sub_diag, firstn_all.
    cbn. apply app_nil_r. }
  assert (skipn k frames = a :: l2) as Hskip.
  { rewrite Hframes, <- Hlen. rewrite skipn_app, Nat.sub_diag, skipn_all.
    reflexivity. }
  rewrite Hskip, Hfirst in *. intros H.
  destruct (scanAppearance_Some _ _ _ _ _ H)
    as (mid & f & rest & Hsplit & Hmid & Hf & Ht & Hl).
  exists l1, a, l2, mid, f, rest.
  split; [exact Hframes |].
  split.
  { eapply Forall_impl; [| exact Hbefore]. intros g Hg. cbn in Hg.
    unfold Qltb in Hg. apply Qle_bool_iff.
    destruct (Qle_bool (videoTime g) afterTime); [reflexivity | discriminate]. }
  split; [apply Qltb_true, Hafter |].
  split; [exact Hsplit |]. split; [exact Hmid |]. split; [exact Hf |].
  split; [| split; assumption].
  apply find_some in Hf. destruct Hf as [_ Hf].
  apply String.eqb_eq, Hf.
Qed.

Lemma findNextAppearance_sound_witness :
  let a := mkSample "A" "Ann" "Home" 3000 4000 in
  findNextAppearance gapBuffer "A" 100 = Some (a, 300)
  /\ exists before start tail mid f rest,
       gapBuffer = before ++ start :: tail
       /\ Forall (fun g => videoTime g <= 100) before
       /\ 100 < videoTime start
       /\ start :: tail = mid ++ f :: rest
       /\ Forall (fun g => find (fun p => String.eqb (id p) "A") (players g)
                           = None
                           /\ videoTime g <= 100 + 600000) mid
       /\ find (fun p => String.eqb (id p) "A") (players f) = Some a
       /\ id a = "A"
       /\ videoTime f = 300 /\ 300 <= 100 + 600000.
Proof.
  intros a.
  assert (findNextAppearance gapBuffer "A" 100 = Some (a, 300)) as H
    by reflexivity.
  split; [exact H |].
  exact (findNextAppearance_sound gapBuffer "A" 100 a 300 H).
Defined.

(** X21: on a non-empty buffer a fraction of [0, 1] always selects a frame
    of the buffer; the fraction 0 selects the first frame and the fraction
    1 the last one. *)
Theorem frameForFraction_in_range (frames : PlaybackBuffer) (frac : Q) :
  frames <> [] -> 0 <= frac -> frac <= 1 ->
  (exists f, frameForFraction frames frac = Some f /\ In f frames)
  /\ frameForFraction frames 0 = first frames
  /\ frameForFraction frames 1 = last frames.
Proof.
  intros Hne H0 H1.
  destruct frames as [| f0 fs]; [contradiction |].
  set (frames := f0 :: fs) in *.
  assert (Hlen : (1 <= length frames)%nat) by (cbn; lia).
  assert (forall q, 0 <= q -> q <= 1 ->
            (0 <= Qfloor (q * inject_Z (Z.of_nat (length frames - 1)))
             <= Z.of_nat (length frames - 1))%Z) as Hidx.
  { intros q Hq0 Hq1.
    set (k := Z.of_nat (length frames - 1)).
    assert (0 <= inject_Z k) as Hk
      by (change 0 with (inject_Z 0); rewrite <- Zle_Qle; subst k; lia).
    split.
    - change 0%Z with (Qfloor 0). apply Qfloor_resp_le.
      apply Qmult_le_0_compat; assumption.
    - rewrite <- (Qfloor_Z k) at 2. apply Qfloor_resp_le.
      rewrite <- (Qmult_1_l (inject_Z k)) at 2.
      apply Qmult_le_compat_r; assumption. }
  assert (forall q, 0 <= q -> q <= 1 ->
            frameForFraction frames q
            = nth_error frames
                (Z.to_nat (Qfloor (q * inject_Z (Z.of_nat (length frames - 1))))))
    as Hunf.
  { intros q Hq0 Hq1. unfold frameForFraction, frames at 1.
    fold frames. destruct (Hidx q Hq0 Hq1) as [Hlo _].
    destruct (Z.ltb_spec
                (Qfloor (q * inject_Z (Z.of_nat (length frames - 1)))) 0);
      [lia | reflexivity]. }
  split; [| split].
  - rewrite (Hunf frac H0 H1). destruct (Hidx frac H0 H1) as [Hlo Hhi].
    destruct (nth_error frames (Z.to_nat _)) as [f |] eqn:E.
    + exists f. split; [reflexivity | eapply nth_error_In, E].
    + apply nth_error_None in E. lia.
  - rewrite (Hunf 0) by (apply Qle_refl || discriminate).
    rewrite Qmult_0_l. reflexivity.
  - rewrite (Hunf 1) by (apply Qle_refl || discriminate).
    rewrite Qmult_1_l, Qfloor_Z, Nat2Z.id. reflexivity.
Qed.

Lemma frameForFraction_in_range_witness :
  gapBuffer <> [] /\ 0 <= 1 # 2 /\ (1 # 2) <= 1
  /\ (exists f, frameForFraction gapBuffer (1 # 2) = Some f /\ In f gapBuffer)
  /\ frameForFraction gapBuffer 0 = first gapBuffer
  /\ frameForFraction gapBuffer 1 = last gapBuffer.
Proof.
  assert (gapBuffer <> []) as Hne by discriminate.
  assert (0 <= 1 # 2) as H0 by discriminate.
  assert ((1 # 2) <= 1) as H1 by discriminate.
  split; [exact Hne |]. split; [exact H0 |]. split; [exact H1 |].
  exact (frameForFraction_in_range gapBuffer (1 # 2) Hne H0 H1).
Defined.
End PlaybackLaws.

(** ** The player registry across an update *)

Module TrackerLaws.
Import Playback.
Local Open Scope Q_scope.

Lemma mapGet_mapSet_eq {V : Type} (k : string) (v : V) (m : JsMap V) :
  mapGet k (mapSet k v m) = Some v.
Proof.
  induction m as [| [k' v'] m IH]; cbn.
  - rewrite String.eqb_refl. reflexivity.
  - destruct (String.eqb k' k) eqn:E; cbn.
    + rewrite String.eqb_refl. reflexivity.
    + rewrite E. exact IH.
Qed.

Lemma mapGet_mapSet_ne {V : Type} (k k' : string) (v : V) (m : JsMap V) :
  k <> k' -> mapGet k (mapSet k' v m) = mapGet k m.
Proof.
  intros Hne. induction m as [| [j w] m IH]; cbn.
  - destruct (String.eqb k' k) eqn:E; [| reflexivity].
    apply String.eqb_eq in E. congruence.
  - destruct (String.eqb j k') eqn:E; cbn.
    + apply String.eqb_eq in E. subst j.
      destruct (String.eqb k' k) eqn:E'; [| reflexivity].
      apply String.eqb_eq in E'. congruence.
    + destruct (String.eqb j k); [reflexivity | exact IH].
Qed.

Lemma mapGet_In {V : Type} (k : string) (v : V) (m : JsMap V) :
  mapGet k m = Some v -> In k (map fst m).
Proof.
  induction m as [| [j w] m IH]; cbn; [discriminate |].
  destruct (String.eqb j k) eqn:E.
  - apply String.eqb_eq in E. tauto.
  - intros H. right. apply IH, H.
Qed.

Lemma obtainPlayer_entry (m : PlayerManager) (i : string) (d : Sample) :
  mapGet i (playerMap (fst (obtainPlayer m i d))) = Some (snd (obtainPlayer m i d))
  /\ gapStates (fst (obtainPlayer m i d)) = gapStates m
  /\ (forall j, j <> i ->
        mapGet j (playerMap (fst (obtainPlayer m i d))) = mapGet j (playerMap m))
  /\ snd (obtainPlayer m i d)
     = match mapGet i (playerMap m) with Some p => p | None => newPlayer d end.
Proof.
  unfold obtainPlayer. destruct (mapGet i (playerMap m)) as [p |] eqn:E; cbn.
  - repeat split; auto.
  - repeat split; [apply mapGet_mapSet_eq |].
    intros j Hj. apply mapGet_mapSet_ne, Hj.
Qed.

Lemma openGap_other buffer next i lk gaps (j : string) :
  j <> i -> openGap buffer next i lk gaps !! j = gaps !! j.
Proof.
  intros Hne. unfold openGap.
  destruct (gaps !! i); [reflexivity |].
  destruct (findNextAppearance _ _ _) as [[fp ft] |]; [| reflexivity].
  destruct lk; [| reflexivity].
  apply lookup_insert_ne. congruence.
Qed.

Lemma updateOne_other prev next alpha buffer m (i j : string) :
  j <> i ->
  mapGet j (playerMap (updateOne prev next alpha buffer m i))
  = mapGet j (playerMap m)
  /\ gapStates (updateOne prev next alpha buffer m i) !! j = gapStates m !! j.
Proof.
  intros Hne. unfold updateOne.
  destruct (match mapGet i (byId (players next)) with
            | Some d => Some d
            | None => _
            end) as [pd |]; [| split; reflexivity].
  destruct (obtainPlayer_entry m i pd) as (_ & Hg & Hother & _).
  destruct (obtainPlayer m i pd) as [m1 pl]. cbn [fst snd] in *.
  specialize (Hother j Hne).
  destruct (mapGet i (byId (players next))) as [nd |].
  - unfold storePlayer. cbn [playerMap gapStates].
    rewrite mapGet_mapSet_ne, Hother by exact Hne.
    rewrite lookup_delete_ne, Hg by congruence. split; reflexivity.
  - set (gaps := openGap _ _ _ _ _).
    assert (gaps !! j = gapStates m !! j) as Hgj
      by (unfold gaps; rewrite openGap_other, Hg by exact Hne; reflexivity).
    destruct (gaps !! i) as [st |].
    + destruct (Qle_bool _ _); unfold storePlayer; cbn [playerMap gapStates];
        rewrite mapGet_mapSet_ne, Hother by exact Hne.
      * rewrite lookup_delete_ne, Hgj by congruence. split; reflexivity.
      * rewrite Hgj. split; reflexivity.
    + unfold storePlayer; cbn [playerMap gapStates].
      rewrite mapGet_mapSet_ne, Hother, Hgj by exact Hne. split; reflexivity.
Qed.

Lemma updateOne_fold_other prev next alpha buffer (ids : list string) m
    (j : string) :
  ~ In j ids ->
  mapGet j (playerMap (fold_left (updateOne prev next alpha buffer) ids m))
  = mapGet j (playerMap m)
  /\ gapStates (fold_left (updateOne prev next alpha buffer) ids m) !! j
     = gapStates m !! j.
Proof.
  revert m. induction ids as [| i ids IH]; intros m Hnot; cbn;
    [split; reflexivity |].
  destruct (IH (updateOne prev next alpha buffer m i)) as [H1 H2];
    [intros H; apply Hnot; right; exact H |].
  destruct (updateOne_other prev next alpha buffer m i j) as [H3 H4];
    [intros ->; apply Hnot; left; reflexivity |].
  split; congruence.
Qed.

(** The registry after the loop: the entry of an id of the loop is the one
    its own iteration wrote, starting from a registry with the same entry
    as the initial one. *)
Lemma updateOne_fold_at prev next alpha buffer (ids : list string) m
    (j : string) :
  NoDup ids -> In j ids ->
  exists m0,
    mapGet j (playerMap m0) = mapGet j (playerMap m)
    /\ gapStates m0 !! j = gapStates m !! j
    /\ mapGet j (playerMap (fold_left (updateOne prev next alpha buffer) ids m))
       = mapGet j (playerMap (updateOne prev next alpha buffer m0 j))
    /\ gapStates (fold_left (updateOne prev next alpha buffer) ids m) !! j
       = gapStates (updateOne prev next alpha buffer m0 j) !! j.
Proof.
  revert m. induction ids as [| i ids IH]; intros m Hnd Hin; [destruct Hin |].
  inversion_clear Hnd as [| ? ? Hni Hnd'].
  cbn [fold_left]. destruct Hin as [-> | Hin].
  - exists m. split; [reflexivity |]. split; [reflexivity |].
    apply updateOne_fold_other, Hni.
  - destruct (IH (updateOne prev next alpha buffer m i) Hnd' Hin)
      as (m0 & H1 & H2 & H3 & H4).
    assert (j <> i) as Hne by (intros ->; contradiction).
    destruct (updateOne_other prev next alpha buffer m i j Hne) as [H5 H6].
    exists m0. repeat split; congruence.
Qed.

Lemma setAdd_In (s : list string) (k j : string) :
  In j (setAdd s k) <-> In j s \/ j = k.
Proof.
  unfold setAdd. destruct (existsb (String.eqb k) s) eqn:E.
  - split; [tauto |]. intros [H | ->]; [exact H |].
    apply existsb_exists in E. destruct E as (z & Hz & Hk).
    apply String.eqb_eq in Hk. subst z. exact Hz.
  - rewrite in_app_iff. cbn. split; intros [H | H]; auto.
    + destruct H as [<- | []]. right; reflexivity.
Qed.

Lemma setAdd_NoDup (s : list string) (k : string) :
  NoDup s -> NoDup (setAdd s k).
Proof.
  intros H. unfold setAdd. destruct (existsb (String.eqb k) s) eqn:E;
    [exact H |].
  apply NoDup_app; [exact H | repeat constructor; intros [] |].
  intros z Hz [Heq | []]. subst z.
  assert (existsb (String.eqb k) s = true) as H'
    by (apply existsb_exists; exists k; split;
        [exact Hz | apply String.eqb_refl]).
  congruence.
Qed.

Lemma fold_setAdd (l s : list string) :
  NoDup s ->
  NoDup (fold_left setAdd l s)
  /\ forall j, In j (fold_left setAdd l s) <-> In j s \/ In j l.
Proof.
  revert s. induction l as [| k l IH]; intros s Hs; cbn.
  - split; [exact Hs | intros j; tauto].
  - destruct (IH (setAdd s k) (setAdd_NoDup s k Hs)) as [H1 H2].
    split; [exact H1 |]. intros j. rewrite H2, setAdd_In.
    split; intros H; intuition (subst; auto).
Qed.

Lemma allKnownIds_spec (m : PlayerManager) (next : Frame) :
  NoDup (allKnownIds m next)
  /\ forall j, In j (allKnownIds m next)
               <-> In j (map fst (playerMap m)) \/ In j (map id (players next)).
Proof.
  unfold allKnownIds.
  destruct (fold_setAdd (map fst (playerMap m)) [] (NoDup_nil _)) as [H1 H2].
  destruct (fold_setAdd (map id (players next)) _ H1) as [H3 H4].
  split; [exact H3 |]. intros j. rewrite H4, H2. cbn. tauto.
Qed.

Lemma byId_fold_In (l : list Sample) (acc : JsMap Sample) (k : string)
    (v : Sample) :
  mapGet k (fold_left (fun m p => mapSet (id p) p m) l acc) = Some v ->
  mapGet k acc = Some v \/ (In v l /\ id v = k).
Proof.
  revert acc. induction l as [| s l IH]; intros acc; cbn; [tauto |].
  intros H. destruct (IH _ H) as [H' | [H' Hk]]; [| tauto].
  destruct (String.eqb_spec k (id s)) as [-> | Hne].
  - rewrite mapGet_mapSet_eq in H'. injection H' as <-. tauto.
  - rewrite mapGet_mapSet_ne in H' by exact Hne. tauto.
Qed.

Lemma byId_In (l : list Sample) (k : string) (v : Sample) :
  mapGet k (byId l) = Some v -> In v l /\ id v = k.
Proof.
  intros H. destruct (byId_fold_In l [] k v H) as [H' | H']; [discriminate |].
  exact H'.
Qed.

Lemma mapGet_map {V : Type} (f : V -> V) (k : string) (m : JsMap V) :
  mapGet k (map (fun kv => (fst kv, f (snd kv))) m) = option_map f (mapGet k m).
Proof.
  induction m as [| [j w] m IH]; cbn; [reflexivity |].
  destruct (String.eqb j k); [reflexivity | exact IH].
Qed.

Lemma byId_nil_None (k : string) : mapGet k (byId []) = None.
Proof. reflexivity. Qed.

(** Case 1 of the loop body, for the id it processes. *)
Lemma updateOne_live prev next alpha buffer m (i : string) (nd : Sample) :
  mapGet i (byId (players next)) = Some nd ->
  let startX :=
    match mapGet i (byId (players prev)) with Some d => x d | None => x nd end in
  let startY :=
    match mapGet i (byId (players prev)) with Some d => y d | None => y nd end in
  exists p,
    mapGet i (playerMap (updateOne prev next alpha buffer m i)) = Some p
    /\ gapStates (updateOne prev next alpha buffer m i) !! i = None
    /\ isInferred p = false
    /\ targetRoot p
       = mkQV ((startX + (x nd - startX) * alpha) / 100) (meshY p)
           ((startY + (y nd - startY) * alpha) / 100)
    /\ playerData p
       = match mapGet i (playerMap m) with
         | Some p0 => playerData p0
         | None => nd
         end.
Proof.
  intros Hnd. cbv zeta. unfold updateOne. rewrite Hnd.
  destruct (obtainPlayer_entry m i nd) as (_ & _ & _ & Hpl).
  destruct (obtainPlayer m i nd) as [m1 pl]. cbn [fst snd] in *.
  unfold storePlayer. cbn [playerMap gapStates].
  rewrite mapGet_mapSet_eq. eexists. split; [reflexivity |].
  split; [apply lookup_delete_eq |].
  split; [reflexivity |]. split; [reflexivity |].
  cbn [updateTarget setInferred playerData]. rewrite Hpl.
  destruct (mapGet i (playerMap m)); reflexivity.
Qed.

(** X22: after [updateWithInterpolation], every entity sampled in the next
    frame is registered, is not inferred, has no gap state, and is
    targeted at the point interpolated by [alpha] between its sample in
    the previous frame (its next sample when it has none) and its next
    sample, scaled by 1/100; a registered entity keeps its [playerData],
    a new one takes the next sample. *)
Theorem live_players_after_update (m : PlayerManager) (prev next : Frame)
    (alpha : Q) (buffer : PlaybackBuffer) (i : string) (nd : Sample) :
  mapGet i (byId (players next)) = Some nd ->
  let m' := updateWithInterpolation m (Some prev) (Some next) alpha buffer in
  let startX :=
    match mapGet i (byId (players prev)) with Some d => x d | None => x nd end in
  let startY :=
    match mapGet i (byId (players prev)) with Some d => y d | None => y nd end in
  exists p,
    mapGet i (playerMap m') = Some p
    /\ gapStates m' !! i = None
    /\ isInferred p = false
    /\ targetRoot p
       = mkQV ((startX + (x nd - startX) * alpha) / 100) (meshY p)
           ((startY + (y nd - startY) * alpha) / 100)
    /\ playerData p
       = match mapGet i (playerMap m) with
         | Some p0 => playerData p0
         | None => nd
         end.
Proof.
  intros Hnd. cbv zeta. unfold updateWithInterpolation.
  destruct (byId_In _ _ _ Hnd) as [Hin Hid].
  assert (fold_left (updateOne prev next alpha buffer) (allKnownIds m next) m
          = match players prev, players next with
            | [], [] =>
                mkManager
                  (map (fun kv => (fst kv, setInferred true (snd kv)))
                     (playerMap m)) (gapStates m) (ball m)
            | _, _ =>
                fold_left (updateOne prev next alpha buffer)
                  (allKnownIds m next) m
            end) as <-.
  { destruct (players next); [destruct Hin |].
    destruct (players prev); reflexivity. }
  destruct (allKnownIds_spec m next) as [Hnd' Hmem].
  assert (In i (allKnownIds m next)) as Hi.
  { apply Hmem. right. apply in_map_iff. exists nd. tauto. }
  destruct (updateOne_fold_at prev next alpha buffer _ m i Hnd' Hi)
    as (m0 & H1 & H2 & H3 & H4).
  destruct (updateOne_live prev next alpha buffer m0 i nd Hnd)
    as (p & Hp & Hg & Hinf & Htgt & Hdata).
  exists p. rewrite H3, H4, <- H1. tauto.
Qed.

Lemma live_players_after_update_witness :
  let f1 := mkFrame [mkSample "B" "Bob" "Away" 500 500] 100 in
  let a := mkSample "A" "Ann" "Home" 3000 4000 in
  let f3 := mkFrame [a; mkSample "B" "Bob" "Away" 500 500] 300 in
  let m' := updateWithInterpolation emptyManager (Some f1) (Some f3) (1 # 2)
              gapBuffer in
  mapGet "A" (byId (players f3)) = Some a
  /\ exists p,
       mapGet "A" (playerMap m') = Some p
       /\ gapStates m' !! "A" = None
       /\ isInferred p = false
       /\ targetRoot p
          = mkQV ((x a + (x a - x a) * (1 # 2)) / 100) (meshY p)
              ((y a + (y a - y a) * (1 # 2)) / 100)
       /\ playerData p = a.
Proof.
  intros f1 a f3 m'.
  assert (mapGet "A" (byId (players f3)) = Some a) as H by reflexivity.
  split; [exact H |].
  exact (live_players_after_update emptyManager f1 f3 (1 # 2) gapBuffer "A" a H).
Defined.

(** Case 2 of the loop body, for a registered id it processes. *)
Lemma updateOne_absent prev next alpha buffer m (i : string) (p0 : Tracked) :
  mapGet i (playerMap m) = Some p0 ->
  mapGet i (byId (players next)) = None ->
  let currentTime :=
    videoTime prev + (videoTime next - videoTime prev) * alpha in
  let lastKnown :=
    match mapGet i (byId (players prev)) with
    | Some d => d
    | None => playerData p0
    end in
  let gaps := openGap buffer next i (Some lastKnown) (gapStates m) in
  let m' := updateOne prev next alpha buffer m i in
  match gaps !! i with
  | Some st =>
      if Qle_bool (endTime st) currentTime
      then mapGet i (playerMap m')
           = Some (setInferred false
                     (updateTarget (endPos st) (setInferred true p0)))
           /\ gapStates m' !! i = None
      else mapGet i (playerMap m')
           = Some (updateTarget
                     (qlerpVectors (startPos st) (endPos st)
                        (qmax 0
                           (qmin 1
                              ((currentTime - startTime st)
                               / (endTime st - startTime st)))))
                     (setInferred true p0))
           /\ gapStates m' !! i = Some st
  | None =>
      mapGet i (playerMap m') = Some (setInferred true p0)
      /\ gapStates m' !! i = None
  end.
Proof.
  intros Hp0 Hnd. cbv zeta. unfold updateOne. rewrite Hnd, Hp0.
  cbn [option_map].
  assert (match mapGet i (byId (players prev)) with
          | Some d => Some d
          | None => Some (playerData p0)
          end
          = Some match mapGet i (byId (players prev)) with
                 | Some d => d
                 | None => playerData p0
                 end) as Hlk
    by (destruct (mapGet i (byId (players prev))); reflexivity).
  rewrite Hlk. unfold obtainPlayer. rewrite Hp0.
  cbn [playerMap gapStates]. rewrite Hp0. cbn [option_map]. rewrite Hlk.
  set (gaps := openGap _ _ _ _ _).
  destruct (gaps !! i) as [st |] eqn:Eg.
  - destruct (Qle_bool _ _); unfold storePlayer; cbn [playerMap gapStates];
      rewrite mapGet_mapSet_eq.
    + split; [reflexivity | apply lookup_delete_eq].
    + split; [reflexivity | exact Eg].
  - unfold storePlayer; cbn [playerMap gapStates].
    rewrite mapGet_mapSet_eq. split; [reflexivity | exact Eg].
Qed.

(** The loop reaches every registered id. *)
Lemma loop_entry prev next alpha buffer m (i : string) (p0 : Tracked) :
  mapGet i (playerMap m) = Some p0 ->
  exists m0,
    mapGet i (playerMap m0) = Some p0
    /\ gapStates m0 !! i = gapStates m !! i
    /\ mapGet i (playerMap (fold_left (updateOne prev next alpha buffer)
                              (allKnownIds m next) m))
       = mapGet i (playerMap (updateOne prev next alpha buffer m0 i))
    /\ gapStates (fold_left (updateOne prev next alpha buffer)
                    (allKnownIds m next) m) !! i
       = gapStates (updateOne prev next alpha buffer m0 i) !! i.
Proof.
  intros Hp0. destruct (allKnownIds_spec m next) as [Hnd Hmem].
  assert (In i (allKnownIds m next)) as Hi
    by (apply Hmem; left; eapply mapGet_In, Hp0).
  destruct (updateOne_fold_at prev next alpha buffer _ m i Hnd Hi)
    as (m0 & H1 & H2 & H3 & H4).
  exists m0. rewrite H1. tauto.
Qed.

(** X23: a registered entity that is absent from the next frame, has no
    gap state and is not found again by [findNextAppearance] is marked
    inferred and otherwise left as it was: its target does not move and
    no gap state is created. *)
Theorem frozen_when_no_future (m : PlayerManager) (prev next : Frame)
    (alpha : Q) (buffer : PlaybackBuffer) (i : string) (p0 : Tracked) :
  mapGet i (playerMap m) = Some p0 ->
  mapGet i (byId (players next)) = None ->
  gapStates m !! i = None ->
  findNextAppearance buffer i (videoTime next) = None ->
  let m' := updateWithInterpolation m (Some prev) (Some next) alpha buffer in
  mapGet i (playerMap m') = Some (setInferred true p0)
  /\ gapStates m' !! i = None.
Proof.
  intros Hp0 Hnd Hgap Hfut. cbv zeta. unfold updateWithInterpolation.
  assert (mapGet i (playerMap (fold_left (updateOne prev next alpha buffer)
                                 (allKnownIds m next) m))
          = Some (setInferred true p0)
          /\ gapStates (fold_left (updateOne prev next alpha buffer)
                          (allKnownIds m next) m) !! i = None) as Hloop.
  { destruct (loop_entry prev next alpha buffer m i p0 Hp0)
      as (m0 & H1 & H2 & H3 & H4).
    pose proof (updateOne_absent prev next alpha buffer m0 i p0 H1 Hnd) as H.
    cbv zeta in H. unfold openGap in H. rewrite H2, Hgap, Hfut in H.
    rewrite H2, Hgap in H. rewrite H3, H4. exact H. }
  destruct (players prev), (players next); try exact Hloop.
  cbn [playerMap gapStates]. rewrite mapGet_map, Hp0. split; [reflexivity | exact Hgap].
Qed.

Lemma frozen_when_no_future_witness :
  let b := mkSample "B" "Bob" "Away" 500 500 in
  let z := mkSample "Z" "Zed" "Home" 700 900 in
  let f0 := mkFrame [b] 0 in
  let f1 := mkFrame [b] 100 in
  let p0 := newPlayer z in
  let m := mkManager [("Z", p0)] ∅ None in
  let m' := updateWithInterpolation m (Some f0) (Some f1) (1 # 2) [f0; f1] in
  mapGet "Z" (playerMap m) = Some p0
  /\ mapGet "Z" (byId (players f1)) = None
  /\ gapStates m !! "Z" = None
  /\ findNextAppearance [f0; f1] "Z" (videoTime f1) = None
  /\ mapGet "Z" (playerMap m') = Some (setInferred true p0)
  /\ gapStates m' !! "Z" = None.
Proof.
  intros b z f0 f1 p0 m m'.
  assert (mapGet "Z" (playerMap m) = Some p0) as H1 by reflexivity.
  assert (mapGet "Z" (byId (players f1)) = None) as H2 by reflexivity.
  assert (gapStates m !! "Z" = None) as H3 by reflexivity.
  assert (findNextAppearance [f0; f1] "Z" (videoTime f1) = None) as H4
    by reflexivity.
  repeat (split; [assumption |]).
  exact (frozen_when_no_future m f0 f1 (1 # 2) [f0; f1] "Z" p0 H1 H2 H3 H4).
Defined.

Lemma not_both_empty (m : PlayerManager) (prev next : Frame) (alpha : Q)
    (buffer : PlaybackBuffer) :
  players prev <> [] \/ players next <> [] ->
  updateWithInterpolation m (Some prev) (Some next) alpha buffer
  = fold_left (updateOne prev next alpha buffer) (allKnownIds m next) m.
Proof.
  intros H. unfold updateWithInterpolation.
  destruct (players prev), (players next); try reflexivity.
  destruct H as [H | H]; contradiction.
Qed.

(** X24: a registered entity that is absent from the next frame and has a
    recorded gap state is marked inferred and targeted at the point of the
    segment from the gap's start position to its end position at the
    fraction [(currentTime - startTime) / (endTime - startTime)] clamped
    to [0, 1], the gap state being kept; once [currentTime] has reached
    the gap's end time it is instead placed at the end position, its gap
    state is deleted and it is no longer inferred. *)
Theorem gap_interpolation (m : PlayerManager) (prev next : Frame)
    (alpha : Q) (buffer : PlaybackBuffer) (i : string) (p0 : Tracked)
    (st : GapState) :
  mapGet i (playerMap m) = Some p0 ->
  mapGet i (byId (players next)) = None ->
  gapStates m !! i = Some st ->
  players prev <> [] \/ players next <> [] ->
  let m' := updateWithInterpolation m (Some prev) (Some next) alpha buffer in
  let currentTime :=
    videoTime prev + (videoTime next - videoTime prev) * alpha in
  if Qle_bool (endTime st) currentTime
  then mapGet i (playerMap m')
       = Some (setInferred false
                 (updateTarget (endPos st) (setInferred true p0)))
       /\ gapStates m' !! i = None
  else mapGet i (playerMap m')
       = Some (updateTarget
                 (qlerpVectors (startPos st) (endPos st)
                    (qmax 0
                       (qmin 1
                          ((currentTime - startTime st)
                           / (endTime st - startTime st)))))
                 (setInferred true p0))
       /\ gapStates m' !! i = Some st.
Proof.
  intros Hp0 Hnd Hgap Hne. cbv zeta.
  rewrite (not_both_empty m prev next alpha buffer Hne).
  destruct (loop_entry prev next alpha buffer m i p0 Hp0)
    as (m0 & H1 & H2 & H3 & H4).
  pose proof (updateOne_absent prev next alpha buffer m0 i p0 H1 Hnd) as H.
  cbv zeta in H. unfold openGap in H. rewrite H2, Hgap in H.
  rewrite H2, Hgap in H. rewrite H3, H4. exact H.
Qed.

Lemma gap_interpolation_witness :
  let b := mkSample "B" "Bob" "Away" 500 500 in
  let f1 := mkFrame [b] 100 in
  let f2 := mkFrame [b] 200 in
  let p0 := newPlayer (mkSample "A" "Ann" "Home" 1000 2000) in
  let st := mkGap (mkQV 10 0 20) (mkQV 30 0 40) 100 300 in
  let m := mkManager [("A", p0)] {["A" := st]} None in
  let m' := updateWithInterpolation m (Some f1) (Some f2) 1 [f1; f2] in
  mapGet "A" (playerMap m) = Some p0
  /\ mapGet "A" (byId (players f2)) = None
  /\ gapStates m !! "A" = Some st
  /\ (players f1 <> [] \/ players f2 <> [])
  /\ (if Qle_bool (endTime st) (100 + (200 - 100) * 1)
      then mapGet "A" (playerMap m')
           = Some (setInferred false
                     (updateTarget (endPos st) (setInferred true p0)))
           /\ gapStates m' !! "A" = None
      else mapGet "A" (playerMap m')
           = Some (updateTarget
                     (qlerpVectors (startPos st) (endPos st)
                        (qmax 0
                           (qmin 1
                              ((100 + (200 - 100) * 1 - startTime st)
                               / (endTime st - startTime st)))))
                     (setInferred true p0))
           /\ gapStates m' !! "A" = Some st).
Proof.
  intros b f1 f2 p0 st m m'.
  assert (mapGet "A" (playerMap m) = Some p0) as H1 by reflexivity.
  assert (mapGet "A" (byId (players f2)) = None) as H2 by reflexivity.
  assert (gapStates m !! "A" = Some st) as H3 by reflexivity.
  assert (players f1 <> [] \/ players f2 <> []) as H4
    by (left; discriminate).
  repeat (split; [assumption |]).
  exact (gap_interpolation m f1 f2 1 [f1; f2] "A" p0 st H1 H2 H3 H4).
Defined.

Lemma updateOne_keeps prev next alpha buffer m (i : string) (p0 : Tracked) :
  mapGet i (playerMap m) = Some p0 ->
  exists p,
    mapGet i (playerMap (updateOne prev next alpha buffer m i)) = Some p
    /\ playerData p = playerData p0 /\ meshY p = meshY p0.
Proof.
  intros Hp0.
  destruct (mapGet i (byId (players next))) as [nd |] eqn:Hnd.
  - unfold updateOne. rewrite Hnd. unfold obtainPlayer. rewrite Hp0.
    unfold storePlayer. cbn [playerMap]. rewrite mapGet_mapSet_eq.
    eexists. split; [reflexivity |]. split; reflexivity.
  - pose proof (updateOne_absent prev next alpha buffer m i p0 Hp0 Hnd) as H.
    cbv zeta in H.
    destruct (openGap _ _ _ _ _ !! i) as [st |].
    + destruct (Qle_bool _ _); destruct H as [-> _]; eexists;
        (split; [reflexivity |]); split; reflexivity.
    + destruct H as [-> _]. eexists. split; [reflexivity |].
      split; reflexivity.
Qed.

(** X25: an update never removes a registered entity and never changes
    its [playerData] (the sample of its first appearance) nor the height
    of its mesh: only its inferred flag and its target move. *)
Theorem registered_players_persist (m : PlayerManager)
    (prev next : option Frame) (alpha : Q) (buffer : PlaybackBuffer)
    (i : string) (p0 : Tracked) :
  mapGet i (playerMap m) = Some p0 ->
  exists p,
    mapGet i (playerMap (updateWithInterpolation m prev next alpha buffer))
    = Some p
    /\ playerData p = playerData p0 /\ meshY p = meshY p0.
Proof.
  intros Hp0. unfold updateWithInterpolation.
  destruct prev as [prev |], next as [next |];
    try (exists p0; split; [exact Hp0 | split; reflexivity]).
  assert (exists p,
            mapGet i (playerMap (fold_left (updateOne prev next alpha buffer)
                                   (allKnownIds m next) m)) = Some p
            /\ playerData p = playerData p0 /\ meshY p = meshY p0) as Hloop.
  { destruct (loop_entry prev next alpha buffer m i p0 Hp0)
      as (m0 & H1 & _ & H3 & _).
    rewrite H3. apply updateOne_keeps, H1. }
  destruct (players prev), (players next); try exact Hloop.
  cbn [playerMap]. rewrite mapGet_map, Hp0. cbn [option_map].
  eexists. split; [reflexivity |]. split; reflexivity.
Qed.

Lemma registered_players_persist_witness :
  let p0 := newPlayer (mkSample "A" "Ann" "Home" 1000 2000) in
  let m := mkManager [("A", p0)] ∅ None in
  mapGet "A" (playerMap m) = Some p0
  /\ exists p,
       mapGet "A" (playerMap (updateWithInterpolation m None None 0 []))
       = Some p
       /\ playerData p = playerData p0 /\ meshY p = meshY p0.
Proof.
  intros p0 m.
  assert (mapGet "A" (playerMap m) = Some p0) as H by reflexivity.
  split; [exact H |].
  exact (registered_players_persist m None None 0 [] "A" p0 H).
Defined.

(** X26: a registered entity that disappears (absent from the next frame,
    no gap state yet) and is found again by [findNextAppearance] gets the
    gap state that runs from its previous-frame sample (the [playerData]
    of its registration when the previous frame lacks it too) at the next
    frame's time to the sample and time of its reappearance; it is marked
    inferred and targeted along that gap, unless [currentTime] has already
    reached the reappearance time. *)
Theorem gap_opening (m : PlayerManager) (prev next : Frame)
    (alpha : Q) (buffer : PlaybackBuffer) (i : string) (p0 : Tracked)
    (future : Sample) (futureTime : Q) :
  mapGet i (playerMap m) = Some p0 ->
  mapGet i (byId (players next)) = None ->
  gapStates m !! i = None ->
  findNextAppearance buffer i (videoTime next) = Some (future, futureTime) ->
  players prev <> [] \/ players next <> [] ->
  let m' := updateWithInterpolation m (Some prev) (Some next) alpha buffer in
  let currentTime :=
    videoTime prev + (videoTime next - videoTime prev) * alpha in
  let lastKnown :=
    match mapGet i (byId (players prev)) with
    | Some d => d
    | None => playerData p0
    end in
  let st :=
    mkGap (mkQV (x lastKnown / 100) 0 (y lastKnown / 100))
      (mkQV (x future / 100) 0 (y future / 100)) (videoTime next) futureTime in
  if Qle_bool futureTime currentTime
  then mapGet i (playerMap m')
       = Some (setInferred false
                 (updateTarget (endPos st) (setInferred true p0)))
       /\ gapStates m' !! i = None
  else mapGet i (playerMap m')
       = Some (updateTarget
                 (qlerpVectors (startPos st) (endPos st)
                    (qmax 0
                       (qmin 1
                          ((currentTime - videoTime next)
                           / (futureTime - videoTime next)))))
                 (setInferred true p0))
       /\ gapStates m' !! i = Some st.
Proof.
  intros Hp0 Hnd Hgap Hfut Hne. cbv zeta.
  rewrite (not_both_empty m prev next alpha buffer Hne).
  destruct (loop_entry prev next alpha buffer m i p0 Hp0)
    as (m0 & H1 & H2 & H3 & H4).
  pose proof (updateOne_absent prev next alpha buffer m0 i p0 H1 Hnd) as H.
  cbv zeta in H. unfold openGap in H. rewrite H2, Hgap, Hfut in H.
  rewrite lookup_insert_eq in H. cbn [endTime startTime startPos endPos] in H.
  rewrite H3, H4. exact H.
Qed.

Lemma gap_opening_witness :
  let a0 := mkSample "A" "Ann" "Home" 1000 2000 in
  let a3 := mkSample "A" "Ann" "Home" 3000 4000 in
  let b := mkSample "B" "Bob" "Away" 500 500 in
  let f0 := mkFrame [a0; b] 0 in
  let f1 := mkFrame [b] 100 in
  let p0 := newPlayer a0 in
  let m := mkManager [("A", p0)] ∅ None in
  let m' := updateWithInterpolation m (Some f0) (Some f1) (1 # 2) gapBuffer in
  let st := mkGap (mkQV (x a0 / 100) 0 (y a0 / 100))
              (mkQV (x a3 / 100) 0 (y a3 / 100)) (videoTime f1) 300 in
  mapGet "A" (playerMap m) = Some p0
  /\ mapGet "A" (byId (players f1)) = None
  /\ gapStates m !! "A" = None
  /\ findNextAppearance gapBuffer "A" (videoTime f1) = Some (a3, 300)
  /\ (players f0 <> [] \/ players f1 <> [])
  /\ (if Qle_bool 300 (videoTime f0 + (videoTime f1 - videoTime f0) * (1 # 2))
      then mapGet "A" (playerMap m')
           = Some (setInferred false
                     (updateTarget (endPos st) (setInferred true p0)))
           /\ gapStates m' !! "A" = None
      else mapGet "A" (playerMap m')
           = Some (updateTarget
                     (qlerpVectors (startPos st) (endPos st)
                        (qmax 0
                           (qmin 1
                              ((videoTime f0
                                + (videoTime f1 - videoTime f0) * (1 # 2)
                                - videoTime f1)
                               / (300 - videoTime f1)))))
                     (setInferred true p0))
           /\ gapStates m' !! "A" = Some st).
Proof.
  intros a0 a3 b f0 f1 p0 m m' st.
  assert (mapGet "A" (playerMap m) = Some p0) as H1 by reflexivity.
  assert (mapGet "A" (byId (players f1)) = None) as H2 by reflexivity.
  assert (gapStates m !! "A" = None) as H3 by reflexivity.
  assert (findNextAppearance gapBuffer "A" (videoTime f1) = Some (a3, 300))
    as H4 by reflexivity.
  assert (players f0 <> [] \/ players f1 <> []) as H5 by (left; discriminate).
  repeat (split; [assumption |]).
  exact (gap_opening m f0 f1 (1 # 2) gapBuffer "A" p0 a3 300 H1 H2 H3 H4 H5).
Defined.
End TrackerLaws.

(** ** Possession *)

Lemma nlt_trans (a b c : num) : nlt a b = true -> nlt b c = true -> nlt a c = true.
Proof. num_cases; discriminate. Qed.

Lemma nlt_irrefl (a : num) : nlt a a = false.
Proof. num_cases. Qed.

Lemma possession_invariant ball (l seen : list Entity)
    (st : option Entity * num) :
  (match fst st with
   | None => snd st = POSSESSION_THRESHOLD
   | Some h =>
       In h seen /\ skipped h = false
       /\ distanceTo (eposition h) (eposition ball) = snd st
       /\ nlt (snd st) POSSESSION_THRESHOLD = true
   end) ->
  Forall (fun e => skipped e = false ->
                   nlt (distanceTo (eposition e) (eposition ball)) (snd st)
                   = false) seen ->
  let r := fold_left (possessionStep ball) l st in
  (match fst r with
   | None => snd r = POSSESSION_THRESHOLD
   | Some h =>
       In h (seen ++ l) /\ skipped h = false
       /\ distanceTo (eposition h) (eposition ball) = snd r
       /\ nlt (snd r) POSSESSION_THRESHOLD = true
   end)
  /\ Forall (fun e => skipped e = false ->
                      nlt (distanceTo (eposition e) (eposition ball)) (snd r)
                      = false) (seen ++ l).
Proof.
  revert seen st. induction l as [| e l IH]; intros seen st Hst Hall; cbn.
  - rewrite app_nil_r. split; assumption.
  - replace (seen ++ e :: l) with ((seen ++ [e]) ++ l)
      by (rewrite <- app_assoc; reflexivity).
    apply IH; unfold possessionStep; destruct (skipped e) eqn:Es.
    + destruct (fst st) as [h |]; [| exact Hst].
      destruct Hst as (Hin & Hrest). split; [| exact Hrest].
      apply in_or_app; left; exact Hin.
    + destruct (nlt (distanceTo (eposition e) (eposition ball)) (snd st))
        eqn:E; cbn [fst snd].
      * split; [apply in_or_app; right; left; reflexivity |].
        split; [exact Es |]. split; [reflexivity |].
        destruct (fst st) as [h |].
        -- destruct Hst as (_ & _ & _ & Hlt). eapply nlt_trans; eassumption.
        -- rewrite Hst in E. exact E.
      * destruct (fst st) as [h |]; [| exact Hst].
        destruct Hst as (Hin & Hrest). split; [| exact Hrest].
        apply in_or_app; left; exact Hin.
    + apply Forall_app; split; [exact Hall |].
      constructor; [congruence | constructor].
    + destruct (nlt (distanceTo (eposition e) (eposition ball)) (snd st))
        eqn:E; cbn [fst snd]; apply Forall_app; split.
      * eapply Forall_impl; [| exact Hall]. cbn.
        intros q Hq Hs. eapply nlt_lower; [exact E | apply Hq, Hs].
      * constructor; [intros _; apply nlt_irrefl | constructor].
      * exact Hall.
      * constructor; [intros _; exact E | constructor].
Qed.

(** X27: without a ball nobody is in possession.  With a ball, the holder
    is a registered entity that is neither the ball nor a referee, lies
    strictly less than 1.5 from the ball and has no such entity strictly
    closer to the ball; and nobody is in possession exactly when no such
    entity lies strictly less than 1.5 from the ball.  The previous holder
    plays no part. *)
Theorem possession_spec (ball : option Entity) (registered : list Entity)
    (current : option Entity) :
  match ball, updatePlayerInPossession ball registered current with
  | None, r => r = None
  | Some b, Some h =>
      (In h registered \/ (current = Some h))
      /\ exists c,
           In c registered /\ eid c = eid h /\ skipped c = false
           /\ nlt (distanceTo (eposition c) (eposition b)) POSSESSION_THRESHOLD
              = true
           /\ Forall
                (fun e => skipped e = false ->
                          nlt (distanceTo (eposition e) (eposition b))
                            (distanceTo (eposition c) (eposition b)) = false)
                registered
  | Some b, None =>
      Forall
        (fun e => skipped e = false ->
                  nlt (distanceTo (eposition e) (eposition b))
                    POSSESSION_THRESHOLD = false)
        registered
  end.
Proof.
  destruct ball as [b |]; [| reflexivity].
  unfold updatePlayerInPossession.
  destruct (possession_invariant b registered [] (None, POSSESSION_THRESHOLD)
              eq_refl (Forall_nil _)) as [Hsel Hmin].
  cbn [app] in Hsel, Hmin.
  destruct (fold_left _ _ _) as [[c |] d]; cbn [fst snd] in *.
  - destruct Hsel as (Hin & Hs & Hd & Hlt). subst d.
    destruct current as [p |].
    + destruct (Nat.eqb_spec (eid p) (eid c)) as [Heq | Hne].
      * split; [right; reflexivity |].
        exists c. repeat split; try assumption. symmetry; exact Heq.
      * split; [left; exact Hin |].
        exists c. repeat split; assumption.
    + split; [left; exact Hin |]. exists c. repeat split; assumption.
  - subst d. exact Hmin.
Qed.
